(** * zclwrite token generators and the transform chain

    A shallow embedding of two Go packages:

    - [zclwrite]: the token generator tree ([TokenGen], [Token], [Tokens],
      [TokenSeq]), its traversal [EachToken], the materialisation [Tokens()]
      and the serialiser [WriteTo];
    - [transform]: the [Transformer] interface, [TransformerFunc] and
      [Chain].

    Conventions of the embedding.

    - A Go [int] is a 64-bit two's complement integer, modelled as a [Z]
      together with the wrap-around of its addition ([int_add]).
    - A Go slice is a [list]; a nil slice and an empty slice are the same
      list [[]]: the code only ranges over slices, takes their length and
      re-slices them, and none of these tells the two apart.
    - A Go pointer [*T] is an [option T]: [None] is the nil pointer and
      [Some v] a pointer to a cell holding [v].  Nothing in the two packages
      writes through a pointer, so the cell's identity is not modelled.
    - A Go call either returns or panics ([exec]); side effects of callbacks
      and of [io.Writer]s are threaded as explicit state. *)

From Stdlib Require Import String List ZArith Lia Bool.
From Equations Require Import Equations.
Import ListNotations.
Local Open Scope Z_scope.

(** ** Go runtime conventions *)

Module Go.

(** The outcome of a call: a normal return or a run-time panic. *)
Inductive exec (A : Type) : Type :=
| Done (a : A)
| Panic.
Arguments Done {A} a.
Arguments Panic {A}.

Definition bind {A B : Type} (c : exec A) (k : A -> exec B) : exec B :=
  match c with
  | Done a => k a
  | Panic => Panic
  end.

(** [for _, x := range xs { body }] with the loop's effect on the
    surrounding state [S] made explicit; a panic in the body leaves the
    loop. *)
Section Range.
Context {A S : Type}.
Variable body : A -> S -> exec S.

Fixpoint range (xs : list A) (s : S) : exec S :=
  match xs with
  | [] => Done s
  | x :: rest => bind (body x s) (range rest)
  end.
End Range.

(** [int]: 64 bits, two's complement, addition wraps. *)
Definition int_bits : Z := 64.
Definition int_min : Z := - 2 ^ (int_bits - 1).
Definition int_max : Z := 2 ^ (int_bits - 1) - 1.

Definition int_wrap (z : Z) : Z :=
  (z - int_min) mod 2 ^ int_bits + int_min.

Definition int_add (a b : Z) : Z := int_wrap (a + b).

Definition is_int (z : Z) : Prop := int_min <= z <= int_max.

(** [len(p)] of a slice. *)
Definition len {A : Type} (p : list A) : Z := Z.of_nat (List.length p).

(** The slice expression [p[:hi]] of a slice whose capacity is its length:
    it panics unless [0 <= hi <= len(p)]. *)
Definition slice_to {A : Type} (p : list A) (hi : Z) : exec (list A) :=
  if (0 <=? hi) && (hi <=? len p) then Done (firstn (Z.to_nat hi) p)
  else Panic.

(** The [error] interface: a nil error is [None]; a non-nil error is
    identified by its message. *)
Definition error : Type := string.

End Go.

Import Go.

Notation "x <- c ;; k" := (bind c (fun x => k))
  (at level 61, c at next level, right associativity).

(** ** Package io, and two writers *)

Module io.

(** [type Writer interface { Write(p []byte) (n int, err error) }].  [W] is
    the state behind the writer; a call returns the count, the error and
    the state it leaves. *)
Definition Writer (W : Type) : Type :=
  list Byte.byte -> W -> Z * option error * W.

(** One call of [Write] as seen from outside: the bytes passed, and the
    count and error returned. *)
Record call : Type := mkCall {
  payload : list Byte.byte;
  reported : Z;
  failure : option error
}.

(** A writer that forwards to [Write] and appends every call to a log: the
    counting sink of a test. *)
Definition recording {W : Type} (Write : Writer W) : Writer (W * list call) :=
  fun p s =>
    let '(k, e, w) := Write p (fst s) in
    (k, e, (w, snd s ++ [mkCall p k e])).

(** An in-memory buffer in the manner of [bytes.Buffer]: every write is
    appended whole and succeeds. *)
Definition buffer : Writer (list Byte.byte) :=
  fun p buf => (len p, None, buf ++ p).

End io.

(** ** Package zclwrite *)

Module zclwrite.

(** [zclsyntax.TokenType] is a rune; the package copies it and never looks
    at it. *)
Definition TokenType : Type := Z.

Record Token : Type := mkToken {
  Type_ : TokenType;
  Bytes : list Byte.byte;
  SpacesBefore : Z
}.

(** [type Tokens []*Token] *)
Definition Tokens : Type := list (option Token).

#[local] Unset Elimination Schemes.
(** [type TokenGen interface { EachToken(TokenCallback) }].  The package
    has three implementations: [*Token], [Tokens] and [*TokenSeq], where
    [type TokenSeq []TokenGen]; a generator is one of these three.  The nil
    interface value, on which a call of [EachToken] panics, is not a
    generator of the model. *)
Inductive TokenGen : Type :=
| OfToken (t : option Token)
| OfTokens (ts : Tokens)
| OfTokenSeq (ts : option (list TokenGen)).
#[local] Set Elimination Schemes.

Definition TokenSeq : Type := list TokenGen.

(** [type TokenCallback func] of a [*Token]: a closure; [S] is the state it
    captures. *)
Definition TokenCallback (S : Type) : Type := option Token -> S -> exec S.

(** [Token.EachToken], pointer receiver *)
Definition Token_EachToken {S} (t : option Token) (cb : TokenCallback S)
  : S -> exec S :=
  cb t.

(** [Tokens.EachToken] *)
Definition Tokens_EachToken {S} (ts : Tokens) (cb : TokenCallback S)
  : S -> exec S :=
  range cb ts.

(** Dynamic dispatch of [gen.EachToken(cb)]; the [OfTokenSeq] case is
    [TokenSeq.EachToken], pointer receiver. *)
Fixpoint EachToken {S} (gen : TokenGen) (cb : TokenCallback S) (s : S)
  : exec S :=
  match gen with
  | OfToken t => Token_EachToken t cb s
  | OfTokens ts => Tokens_EachToken ts cb s
  | OfTokenSeq None => Done s
  | OfTokenSeq (Some seq) => range (fun gen' => EachToken gen' cb) seq s
  end.

(** [TokenSeq.EachToken] as a method of the pointer *)
Definition TokenSeq_EachToken {S} (ts : option TokenSeq)
  (cb : TokenCallback S) : S -> exec S :=
  EachToken (OfTokenSeq ts) cb.

(** The closure of [Tokens()]: [tokens = append(tokens, token)]. *)
Definition append_token : TokenCallback Tokens :=
  fun token tokens => Done (tokens ++ [token]).

(** [TokenSeq.Tokens], pointer receiver *)
Definition TokenSeq_Tokens (ts : option TokenSeq) : exec Tokens :=
  TokenSeq_EachToken ts append_token [].

(** *** WriteTo *)

Section WriteTo.
Context {W : Type}.
(** [wr.Write] *)
Variable Write : io.Writer W.

(** The variables the closure of [WriteTo] captures and updates, with the
    state of [wr]. *)
Record locals : Type := mkLocals {
  n : Z;
  err : option error;
  wr : W
}.

(** [spaces := make([]byte, 40)], filled with [' ']. *)
Definition spaces : list Byte.byte := repeat Byte.x20 40.

(** How the [for] loop over the spaces ends: it runs out ([Next]) or the
    closure returns from inside it ([Return]). *)
Inductive flow : Type :=
| Next (st : locals)
| Return (st : locals).

(** [for spacesBefore := token.SpacesBefore; spacesBefore > 0;
    spacesBefore -= len(spaces) { ... }] *)
Equations? space_loop (spacesBefore : Z) (st : locals) : exec flow
  by wf (Z.to_nat spacesBefore) lt :=
space_loop spacesBefore st with Z_gt_dec spacesBefore 0 => {
  | right _ := Done (Next st)
  | left _ :=
      let thisChunk :=
        if spacesBefore >? len spaces then len spaces else spacesBefore in
      match slice_to spaces thisChunk with
      | Panic => Panic
      | Done p =>
          let '(thisN, e, w) := Write p (wr st) in
          let st' := {| n := int_add (n st) thisN; err := e; wr := w |} in
          match e with
          | Some _ => Done (Return st')
          | None => space_loop (spacesBefore - len spaces) st'
          end
      end }.
Proof.
  change (len spaces) with 40. lia.
Qed.

(** The closure passed to [EachToken]. *)
Definition WriteTo_func1 : TokenCallback locals :=
  fun token st =>
    match err st with
    | Some _ => Done st
    | None =>
        match token with
        | None => Panic
        | Some t =>
            after <- space_loop (SpacesBefore t) st ;;
            match after with
            | Return st' => Done st'
            | Next st' =>
                let '(thisN, e, w) := Write (Bytes t) (wr st') in
                Done {| n := int_add (n st') thisN; err := e; wr := w |}
            end
        end
    end.

(** [func (ts *TokenSeq) WriteTo(wr io.Writer) (int, error)], from the
    writer's state [w]; the result carries the state the writer is left
    in. *)
Definition WriteTo (ts : option TokenSeq) (w : W)
  : exec (Z * option error * W) :=
  st <- TokenSeq_EachToken ts WriteTo_func1
          {| n := 0; err := None; wr := w |} ;;
  Done (n st, err st, wr st).
End WriteTo.

Arguments locals W : clear implicits.
Arguments flow W : clear implicits.

(** [var TokenSeqEmpty = TokenSeq([]TokenGen(nil))] *)
Definition TokenSeqEmpty : TokenSeq := [].

(** The tokens a generator hands to its callback, in order: what the
    [Tokens()] closure collects when run on [gen]. *)
Definition flatten (gen : TokenGen) : Tokens :=
  match EachToken gen append_token [] with
  | Done tokens => tokens
  | Panic => []
  end.

(** Induction over a generator tree, with the hypothesis available for
    every child of a sequence node. *)
Section TokenGen_induction.
Variable P : TokenGen -> Prop.
Hypothesis P_token : forall t, P (OfToken t).
Hypothesis P_tokens : forall ts, P (OfTokens ts).
Hypothesis P_nil : P (OfTokenSeq None).
Hypothesis P_seq :
  forall seq, Forall P seq -> P (OfTokenSeq (Some seq)).

Fixpoint TokenGen_ind (gen : TokenGen) : P gen :=
  match gen with
  | OfToken t => P_token t
  | OfTokens ts => P_tokens ts
  | OfTokenSeq None => P_nil
  | OfTokenSeq (Some seq) =>
      P_seq seq
        ((fix children (l : list TokenGen) : Forall P l :=
            match l with
            | [] => Forall_nil P
            | c :: l' => Forall_cons c (TokenGen_ind c) (children l')
            end) seq)
  end.
End TokenGen_induction.

End zclwrite.

(** ** Package transform *)

Module transform.

Section Transformers.
(** [zcl.Body], which the package treats as opaque, and the state of the
    world a transformer may read or write while it runs. *)
Variables Body World : Type.

(** [type Transformer interface { TransformBody(zcl.Body) zcl.Body }] *)
Record Transformer : Type := mkTransformer {
  TransformBody : Body -> World -> Body * World
}.

(** [type TransformerFunc func(zcl.Body) zcl.Body] with its method
    [TransformBody], which calls the function. *)
Definition TransformerFunc (f : Body -> World -> Body * World)
  : Transformer :=
  {| TransformBody := fun body => f body |}.

(** [type chain []Transformer] *)
Definition chain : Type := list Transformer.

(** [func (c chain) TransformBody(body zcl.Body) zcl.Body]: the loop
    [for _, t := range c { body = t.TransformBody(body) }]. *)
Fixpoint chain_TransformBody (c : chain) (body : Body) (w : World)
  : Body * World :=
  match c with
  | [] => (body, w)
  | t :: rest =>
      let '(body', w') := TransformBody t body w in
      chain_TransformBody rest body' w'
  end.

(** [func Chain(c []Transformer) Transformer] *)
Definition Chain (c : list Transformer) : Transformer :=
  {| TransformBody := chain_TransformBody c |}.

(** The expression [tn.TransformBody(... t1.TransformBody(body) ...)],
    written out from its outermost call inwards: the argument of the
    outermost call, the nest of the earlier transformers, is evaluated
    first.  The list holds the transformers outermost first. *)
Fixpoint nested_calls (outermost_first : list Transformer) (body : Body)
  (w : World) : Body * World :=
  match outermost_first with
  | [] => (body, w)
  | tn :: inner =>
      let '(arg, w') := nested_calls inner body w in
      TransformBody tn arg w'
  end.
End Transformers.

Arguments TransformBody {Body World} t body w.
Arguments TransformerFunc {Body World} f.
Arguments chain_TransformBody {Body World} c body w.
Arguments Chain {Body World} c.
Arguments nested_calls {Body World} outermost_first body w.

End transform.

Import zclwrite.

(** ** What a run of WriteTo looks like from the writer's side *)

Module Trace.

(** [k] space characters; none when [k] is not positive. *)
Definition space_run (k : Z) : list Byte.byte := repeat Byte.x20 (Z.to_nat k).

(** A run of [k] spaces cut into pieces of the size of the scratch buffer:
    [k / 40] full buffers, then the [k mod 40] spaces left over, if any. *)
Definition space_chunks (k : Z) : list (list Byte.byte) :=
  if k <=? 0 then []
  else repeat spaces (Z.to_nat (k / 40))
       ++ (if k mod 40 =? 0 then [] else [space_run (k mod 40)]).

(** The writes one token asks for: its spaces, then its bytes. *)
Definition requests (t : Token) : list (list Byte.byte) :=
  space_chunks (SpacesBefore t) ++ [Bytes t].

Definition plan (toks : list Token) : list (list Byte.byte) :=
  flat_map requests toks.

(** The text of a token and of a token list. *)
Definition render_token (t : Token) : list Byte.byte :=
  space_run (SpacesBefore t) ++ Bytes t.

Definition render (toks : list Token) : list Byte.byte :=
  flat_map render_token toks.


Section Serving.
Context {W : Type}.
Variable Write : io.Writer W.

(** The writer is handed [reqs] one after the other, from state [w], up to
    and including the first request it answers with an error: the calls
    it sees, and the state it is left in. *)
Fixpoint serve (reqs : list (list Byte.byte)) (w : W)
  : list io.call * W :=
  match reqs with
  | [] => ([], w)
  | p :: rest =>
      let '(k, e, w') := Write p w in
      match e with
      | Some _ => ([io.mkCall p k e], w')
      | None =>
          let '(calls, w'') := serve rest w' in
          (io.mkCall p k e :: calls, w'')
      end
  end.
End Serving.

(** The count after [calls], from [n0]: one [n += thisN] per call. *)
Definition tally (calls : list io.call) (n0 : Z) : Z :=
  fold_left (fun acc c => int_add acc (io.reported c)) calls n0.

(** The exact sum of the counts the writer reported. *)
Definition total_reported (calls : list io.call) : Z :=
  fold_right (fun c acc => io.reported c + acc) 0 calls.

(** The sizes of the writes, call after call, and their sum. *)
Definition sizes (calls : list io.call) : list Z :=
  map (fun c => len (io.payload c)) calls.

Definition sum (zs : list Z) : Z := fold_right Z.add 0 zs.

(** The bytes handed to the writer, call after call. *)
Definition bytes_passed (calls : list io.call) : list Byte.byte :=
  flat_map io.payload calls.

(** The error of the last call, if any. *)
Definition outcome (calls : list io.call) : option error :=
  last (map io.failure calls) None.

End Trace.

(** ** The tokenizer *)

Module lexer.

(** Modelled from the spec: the tokenizer (the lexer of package zclsyntax
    and the conversion of its tokens into zclwrite tokens) is not among the
    sources.  The spec describes its result only through the data model: a
    token is a byte run of the source together with the non-negative count
    of the literal space characters that preceded it in the original
    layout.  [tokenizes B toks] holds when [toks] cuts [B] up in that way;
    a source ending in spaces gives a last token with no bytes. *)
Inductive tokenizes : list Byte.byte -> list Token -> Prop :=
| tokenizes_end : tokenizes [] []
| tokenizes_token (kind : TokenType) (k : Z) (b rest : list Byte.byte)
    (toks : list Token) :
    0 <= k ->
    tokenizes rest toks ->
    tokenizes (Trace.space_run k ++ b ++ rest)
      ({| Type_ := kind; Bytes := b; SpacesBefore := k |} :: toks).

End lexer.

(** ** Values for the examples *)

Module Samples.

Import transform.

Definition bytes_of (s : string) : list Byte.byte := list_byte_of_string s.

Definition tok (k : Z) (s : string) : Token :=
  {| Type_ := 0; Bytes := bytes_of s; SpacesBefore := k |}.

(** A writer with room for a fixed number of bytes: it takes what fits and
    fails on the write that does not fit. *)
Definition limited : io.Writer Z :=
  fun p room =>
    if len p <=? room then (len p, None, room - len p)
    else (room, Some "no space left"%string, 0).

(** A writer that drops the last byte of every write and reports the short
    count without an error. *)
Definition lossy : io.Writer (list Byte.byte) :=
  fun p kept =>
    (Z.max 0 (len p - 1), None, kept ++ removelast p).

(** A writer that reports the largest [int] for every write. *)
Definition boastful : io.Writer unit :=
  fun _ u => (int_max, None, u).

(** A callback that panics whenever it is called. *)
Definition never_called : TokenCallback unit := fun _ _ => Panic.

(** The text [a = 1  # c], its tokens, and a nested tree that holds them:
    a token, an inner sequence, the empty sequence, a nil sequence pointer
    and a flat run. *)
Definition source : list Byte.byte := bytes_of "a = 1  # c".

Definition source_tokens : list Token :=
  [tok 0 "a"; tok 1 "="; tok 1 "1"; tok 2 "# c"; tok 0 EmptyString].

Definition inner : TokenSeq :=
  [OfToken (Some (tok 1 "=")); OfTokens [Some (tok 1 "1")]].

Definition tree : TokenSeq :=
  [OfToken (Some (tok 0 "a"));
   OfTokenSeq (Some inner);
   OfTokenSeq (Some TokenSeqEmpty);
   OfTokenSeq None;
   OfTokens [Some (tok 2 "# c"); Some (tok 0 EmptyString)]].

(** What the lossy writer is passed, reports and keeps for the tokens
    [41 spaces, ab] and [c]. *)
Definition lossy_tokens : TokenSeq :=
  [OfToken (Some (tok 41 "ab")); OfToken (Some (tok 0 "c"))].

Definition lossy_log : list io.call :=
  [io.mkCall (repeat Byte.x20 40) 39 None;
   io.mkCall (repeat Byte.x20 1) 0 None;
   io.mkCall (bytes_of "ab") 1 None;
   io.mkCall (bytes_of "c") 0 None].

Definition lossy_kept : list Byte.byte := repeat Byte.x20 39 ++ bytes_of "a".

(** A tree of three parts for a writer with room for 50 bytes: two tokens
    that fit, a token whose second chunk of spaces does not, and a part
    that starts with a nil token pointer. *)
Definition fitting : list Token := [tok 0 "a"; tok 1 "="].
Definition overflowing : Token := tok 100 "xyz".
Definition unreached : Tokens := [None; Some (tok 0 "never")].

Definition too_long : TokenSeq :=
  [OfTokens (map Some fitting); OfToken (Some overflowing);
   OfTokens unreached].



(** A tree of sequences with no token in it. *)
Definition hollow : TokenSeq :=
  [OfTokenSeq (Some TokenSeqEmpty); OfTokenSeq None; OfTokens [];
   OfTokenSeq (Some [OfTokenSeq (Some [])])].

(** Bodies that are lists of markers, in a world that counts the calls. *)
Definition appendMarker (m : string) : Transformer (list string) nat :=
  TransformerFunc (fun body calls => (body ++ [m], S calls)).

End Samples.

(** ** What the documentation of io.Writer asks of a writer *)

Module Contract.

(** [Write] returns a count [n] with [0 <= n <= len(p)]. *)
Definition counts_in_range {W : Type} (Write : io.Writer W) : Prop :=
  forall p w, 0 <= fst (fst (Write p w)) <= len p.

(** [Write] returns a non-nil error when it returns [n < len(p)]: a call
    without an error has taken all of [p]. *)
Definition short_means_error {W : Type} (Write : io.Writer W) : Prop :=
  forall p w, snd (fst (Write p w)) = None -> fst (fst (Write p w)) = len p.

(** The number of writes the closure of WriteTo issues for a token when
    none fails: one for each started run of 40 spaces, and one for the
    bytes. *)
Definition writes_for (t : Token) : Z :=
  (Z.max 0 (SpacesBefore t) + 39) / 40 + 1.

Definition writes_for_all (toks : list Token) : Z :=
  fold_right (fun t acc => writes_for t + acc) 0 toks.

(** A writer with room for a number of bytes, in the manner of
    [Samples.limited], whose room cannot be negative. *)
Definition capped : io.Writer nat :=
  fun p room =>
    if (List.length p <=? room)%nat
    then (len p, None, (room - List.length p)%nat)
    else (Z.of_nat room, Some "no space left"%string, 0%nat).

End Contract.

(** * Theorems *)

(** ** The range loop *)

Section RangeFacts.
Context {A S : Type}.
Variable body : A -> S -> exec S.

Lemma range_app (xs ys : list A) (s : S) :
  range body (xs ++ ys) s = bind (range body xs s) (range body ys).
Proof.
  revert s. induction xs as [|x xs IH]; intros s; simpl.
  - reflexivity.
  - destruct (body x s) as [s'|]; simpl; [apply IH | reflexivity].
Qed.

Lemma range_ext (body' : A -> S -> exec S) (xs : list A) (s : S) :
  Forall (fun x => forall s', body x s' = body' x s') xs ->
  range body xs s = range body' xs s.
Proof.
  intros H. revert s. induction H as [|x xs Hx _ IH]; intros s; simpl.
  - reflexivity.
  - rewrite Hx. destruct (body' x s); simpl; [apply IH | reflexivity].
Qed.
End RangeFacts.

(** Ranging over a list of lists, with an inner range loop as the body, is
    ranging over their concatenation. *)
Lemma range_concat {A S : Type} (body : A -> S -> exec S)
  (xss : list (list A)) (s : S) :
  range (fun xs => range body xs) xss s = range body (concat xss) s.
Proof.
  revert s. induction xss as [|xs xss IH]; intros s; simpl.
  - reflexivity.
  - rewrite range_app. destruct (range body xs s); simpl; [apply IH | reflexivity].
Qed.

(** ** Flattening a generator tree *)

Lemma range_append_token (ts acc : Tokens) :
  range append_token ts acc = Done (acc ++ ts).
Proof.
  revert acc. induction ts as [|t ts IH]; intros acc; simpl.
  - now rewrite app_nil_r.
  - unfold append_token at 1. simpl. rewrite IH, <- app_assoc. reflexivity.
Qed.

(** Whatever the callback, a generator calls it on the tokens of a fixed
    list, in order. *)
Lemma EachToken_as_range {S : Type} (cb : TokenCallback S) (gen : TokenGen) :
  exists tokens : Tokens, forall s, EachToken gen cb s = range cb tokens s.
Proof.
  induction gen as [t|ts| |seq IH] using TokenGen_ind.
  - exists [t]. intros s. simpl. unfold Token_EachToken.
    destruct (cb t s); reflexivity.
  - exists ts. reflexivity.
  - exists []. reflexivity.
  - simpl. induction IH as [|c seq [tc Hc] _ [tseq Hseq]].
    + exists []. reflexivity.
    + exists (tc ++ tseq). intros s. simpl. rewrite range_app, Hc.
      destruct (range cb tc s); simpl; [apply Hseq | reflexivity].
Qed.

Lemma EachToken_append_token (gen : TokenGen) (acc : Tokens) :
  EachToken gen append_token acc = Done (acc ++ flatten gen).
Proof.
  unfold flatten.
  destruct (EachToken_as_range append_token gen) as [tokens H].
  rewrite !H, !range_append_token. reflexivity.
Qed.

Lemma flatten_OfToken (t : option Token) : flatten (OfToken t) = [t].
Proof. reflexivity. Qed.

Lemma flatten_OfTokens (ts : Tokens) : flatten (OfTokens ts) = ts.
Proof.
  unfold flatten. simpl. unfold Tokens_EachToken.
  now rewrite range_append_token.
Qed.

Lemma flatten_nil_pointer : flatten (OfTokenSeq None) = [].
Proof. reflexivity. Qed.

Lemma range_children_append_token (seq : TokenSeq) (acc : Tokens) :
  range (fun gen => EachToken gen append_token) seq acc
  = Done (acc ++ concat (map flatten seq)).
Proof.
  revert acc. induction seq as [|c seq IH]; intros acc; simpl.
  - now rewrite app_nil_r.
  - rewrite EachToken_append_token. simpl. rewrite IH, <- app_assoc.
    reflexivity.
Qed.

Lemma flatten_OfTokenSeq (seq : TokenSeq) :
  flatten (OfTokenSeq (Some seq)) = concat (map flatten seq).
Proof.
  unfold flatten. simpl. now rewrite range_children_append_token.
Qed.

(** The callback of a traversal is called on [flatten gen], whatever it
    is. *)
Lemma EachToken_flatten {S : Type} (cb : TokenCallback S) (gen : TokenGen)
  (s : S) :
  EachToken gen cb s = range cb (flatten gen) s.
Proof.
  revert s. induction gen as [t|ts| |seq IH] using TokenGen_ind; intros s.
  - simpl. unfold Token_EachToken. destruct (cb t s); reflexivity.
  - now rewrite flatten_OfTokens.
  - reflexivity.
  - rewrite flatten_OfTokenSeq. simpl.
    rewrite <- range_concat.
    revert s. induction IH as [|c seq Hc _ IHseq]; intros s; simpl.
    + reflexivity.
    + rewrite Hc. destruct (range cb (flatten c) s); simpl;
        [apply IHseq | reflexivity].
Qed.

Lemma TokenSeq_Tokens_flatten (ts : option TokenSeq) :
  TokenSeq_Tokens ts = Done (flatten (OfTokenSeq ts)).
Proof.
  unfold TokenSeq_Tokens, TokenSeq_EachToken.
  now rewrite EachToken_append_token.
Qed.

(** C1.  For a token sequence with children [c1; ...; cn], nested to any
    depth and mixing single tokens, flat token lists and sequences: the
    tokens [Tokens()] collects, and the tokens any callback is called on,
    are the concatenation in child order of what each child's own traversal
    hands to its callback. *)
Theorem EachToken_concatenates_children (children : TokenSeq) :
  TokenSeq_Tokens (Some children)
  = Done (concat (map flatten children))
  /\ (forall child, In child children ->
        EachToken child append_token [] = Done (flatten child))
  /\ (forall (S : Type) (cb : TokenCallback S) (s : S),
        TokenSeq_EachToken (Some children) cb s
        = range cb (concat (map flatten children)) s)
  /\ (forall (S : Type) (cb : TokenCallback S) (s : S) child,
        In child children ->
        EachToken child cb s = range cb (flatten child) s).
Proof.
  repeat split.
  - now rewrite TokenSeq_Tokens_flatten, flatten_OfTokenSeq.
  - intros child _. now rewrite EachToken_append_token.
  - intros S cb s. unfold TokenSeq_EachToken.
    now rewrite EachToken_flatten, flatten_OfTokenSeq.
  - intros S cb s child _. apply EachToken_flatten.
Qed.

(** C5.  A traversal of the empty sequence, of a nil sequence pointer or of
    a sequence whose child list is nil (the list [[]], as for the empty
    sequence) returns at once and never calls the callback; and putting the
    empty sequence among the children of a sequence changes neither its
    flattened tokens nor what a traversal does. *)
Theorem empty_sequence_is_neutral :
  (forall (S : Type) (cb : TokenCallback S) (s : S),
      TokenSeq_EachToken (Some TokenSeqEmpty) cb s = Done s
      /\ TokenSeq_EachToken None cb s = Done s
      /\ TokenSeq_EachToken (Some []) cb s = Done s)
  /\ TokenSeq_Tokens (Some TokenSeqEmpty) = Done []
  /\ TokenSeq_Tokens None = Done []
  /\ (forall before after : list TokenGen,
        TokenSeq_Tokens
          (Some (before ++ OfTokenSeq (Some TokenSeqEmpty) :: after))
        = TokenSeq_Tokens (Some (before ++ after)))
  /\ (forall (S : Type) (cb : TokenCallback S) (s : S)
        (before after : list TokenGen),
        TokenSeq_EachToken
          (Some (before ++ OfTokenSeq (Some TokenSeqEmpty) :: after)) cb s
        = TokenSeq_EachToken (Some (before ++ after)) cb s).
Proof.
  assert (E : forall before after : list TokenGen,
             concat (map flatten
                       (before ++ OfTokenSeq (Some TokenSeqEmpty) :: after))
             = concat (map flatten (before ++ after))).
  { intros before after. rewrite !map_app, !concat_app. reflexivity. }
  repeat split.
  - intros before after.
    now rewrite !TokenSeq_Tokens_flatten, !flatten_OfTokenSeq, E.
  - intros S cb s before after. unfold TokenSeq_EachToken.
    now rewrite !EachToken_flatten, !flatten_OfTokenSeq, E.
Qed.

(** The callback that panics when called shows that none of the three
    empty traversals calls it, and the sample tree flattens in document
    order. *)
Example empty_traversals_do_not_call :
  TokenSeq_EachToken (Some TokenSeqEmpty) Samples.never_called tt = Done tt
  /\ TokenSeq_EachToken None Samples.never_called tt = Done tt
  /\ TokenSeq_EachToken (Some [OfTokenSeq None; OfTokens []])
       Samples.never_called tt = Done tt
  /\ TokenSeq_EachToken (Some [OfToken None]) Samples.never_called tt = Panic.
Proof. repeat split. Qed.

Example sample_tree_tokens :
  TokenSeq_Tokens (Some Samples.tree)
  = Done (map Some Samples.source_tokens).
Proof. reflexivity. Qed.

(** ** Chains of transformers *)

Section ChainFacts.
Import transform.
Context {Body World : Type}.
Implicit Types (t : Transformer Body World) (c : chain Body World).

Lemma chain_TransformBody_app c1 c2 (body : Body) (w : World) :
  chain_TransformBody (c1 ++ c2) body w
  = let '(body', w') := chain_TransformBody c1 body w in
    chain_TransformBody c2 body' w'.
Proof.
  revert body w. induction c1 as [|t c1 IH]; intros body w; simpl.
  - reflexivity.
  - destruct (TransformBody t body w) as [body' w']. apply IH.
Qed.

Lemma chain_TransformBody_nested c (body : Body) (w : World) :
  chain_TransformBody c body w = nested_calls (rev c) body w.
Proof.
  induction c as [|t c IH] using rev_ind.
  - reflexivity.
  - rewrite chain_TransformBody_app, rev_unit, IH. simpl.
    destruct (nested_calls (rev c) body w) as [arg w'].
    destruct (TransformBody t arg w'); reflexivity.
Qed.
End ChainFacts.

(** C6.  [Chain [t1; ...; tn]] transforms a body as the nested calls
    [tn.TransformBody(... t1.TransformBody(body) ...)] do: [t1] runs first
    and every transformer runs, each on the result of the one before it.
    The empty chain returns the body as it is (and runs nothing), and a
    chain that holds a transformer twice runs it twice. *)
Theorem Chain_applies_in_order (Body World : Type)
  (ts : list (transform.Transformer Body World)) (body : Body) (w : World) :
  transform.TransformBody (transform.Chain ts) body w
  = transform.nested_calls (rev ts) body w
  /\ transform.TransformBody (transform.Chain []) body w = (body, w)
  /\ (forall t,
        transform.TransformBody (transform.Chain (ts ++ [t])) body w
        = let '(body', w') :=
            transform.TransformBody (transform.Chain ts) body w in
          transform.TransformBody t body' w')
  /\ (forall t,
        transform.TransformBody (transform.Chain [t; t]) body w
        = let '(body', w') := transform.TransformBody t body w in
          transform.TransformBody t body' w').
Proof.
  repeat split.
  - apply chain_TransformBody_nested.
  - intros t. simpl. rewrite chain_TransformBody_app.
    destruct (transform.chain_TransformBody ts body w) as [body' w']. simpl.
    destruct (transform.TransformBody t body' w'); reflexivity.
  - intros t. simpl.
    destruct (transform.TransformBody t body w) as [body' w'].
    destruct (transform.TransformBody t body' w'); reflexivity.
Qed.

(** Markers are appended in the order of the chain, and once per
    occurrence of a transformer. *)
Example chain_of_markers :
  let A := Samples.appendMarker "A" in
  let B := Samples.appendMarker "B" in
  transform.TransformBody (transform.Chain [A; B]) [] 0%nat
  = (["A"; "B"]%string, 2%nat)
  /\ transform.TransformBody (transform.Chain [B; A]) [] 0%nat
     = (["B"; "A"]%string, 2%nat)
  /\ transform.TransformBody (transform.Chain [A; A]) [] 0%nat
     = (["A"; "A"]%string, 2%nat)
  /\ transform.TransformBody (transform.Chain [A; A]) [] 0%nat
     <> transform.TransformBody A [] 0%nat
  /\ transform.TransformBody (transform.Chain [transform.Chain [A]; B]) []
       0%nat
     = (["A"; "B"]%string, 2%nat).
Proof. repeat split; discriminate. Qed.

(** ** Arithmetic of the count *)

Lemma int_wrap_is_int (z : Z) : is_int (int_wrap z).
Proof.
  unfold is_int, int_wrap, int_min, int_max, int_bits.
  pose proof (Z.mod_pos_bound (z - - 2 ^ (64 - 1)) (2 ^ 64) eq_refl).
  change (2 ^ (64 - 1)) with 9223372036854775808 in *.
  change (2 ^ 64) with 18446744073709551616 in *. lia.
Qed.

Lemma int_wrap_small (z : Z) : is_int z -> int_wrap z = z.
Proof.
  unfold is_int, int_wrap, int_min, int_max, int_bits.
  change (2 ^ (64 - 1)) with 9223372036854775808.
  change (2 ^ 64) with 18446744073709551616.
  intros H. rewrite Z.mod_small; lia.
Qed.

Lemma int_wrap_add_l (a b : Z) : int_wrap (int_wrap a + b) = int_wrap (a + b).
Proof.
  unfold int_wrap. f_equal.
  replace ((a - int_min) mod 2 ^ int_bits + int_min + b - int_min)
    with ((a - int_min) mod 2 ^ int_bits + b) by ring.
  rewrite Zplus_mod_idemp_l. f_equal. ring.
Qed.

Lemma int_wrap_add_r (a b : Z) : int_wrap (a + int_wrap b) = int_wrap (a + b).
Proof. rewrite Z.add_comm, int_wrap_add_l. f_equal. ring. Qed.

Lemma tally_app (calls1 calls2 : list io.call) (n0 : Z) :
  Trace.tally (calls1 ++ calls2) n0
  = Trace.tally calls2 (Trace.tally calls1 n0).
Proof. apply fold_left_app. Qed.

Lemma total_reported_app (calls1 calls2 : list io.call) :
  Trace.total_reported (calls1 ++ calls2)
  = Trace.total_reported calls1 + Trace.total_reported calls2.
Proof.
  induction calls1 as [|c calls1 IH]; simpl; [reflexivity | rewrite IH; ring].
Qed.

(** The count is the exact sum of the reported counts, wrapped to an
    [int]. *)
Lemma tally_wraps_total (calls : list io.call) (n0 : Z) :
  is_int n0 ->
  Trace.tally calls n0 = int_wrap (n0 + Trace.total_reported calls).
Proof.
  revert n0. induction calls as [|c calls IH]; intros n0 Hn0; simpl.
  - rewrite Z.add_0_r. symmetry. now apply int_wrap_small.
  - change (fold_left _ calls ?a) with (Trace.tally calls a).
    rewrite IH by apply int_wrap_is_int.
    unfold int_add. rewrite int_wrap_add_l. f_equal. ring.
Qed.

(** ** The chunks of a space run *)

Lemma chunk_steps_ind (P : Z -> Prop) :
  (forall k, k <= 0 -> P k) ->
  (forall k, 0 < k -> P (k - 40) -> P k) ->
  forall k, P k.
Proof.
  intros Hstop Hstep k.
  remember (Z.to_nat k) as m eqn:Em. revert k Em.
  induction m as [m IH] using lt_wf_ind. intros k Em.
  destruct (Z_le_gt_dec k 0) as [Hk|Hk].
  - now apply Hstop.
  - apply Hstep; [lia|]. apply (IH (Z.to_nat (k - 40))); [lia | reflexivity].
Qed.

Lemma space_run_add (a b : Z) :
  0 <= a -> 0 <= b ->
  Trace.space_run a ++ Trace.space_run b = Trace.space_run (a + b).
Proof.
  intros Ha Hb. unfold Trace.space_run.
  rewrite Z2Nat.inj_add by assumption. symmetry. apply repeat_app.
Qed.

Lemma len_space_run (k : Z) : 0 <= k -> len (Trace.space_run k) = k.
Proof.
  intros Hk. unfold len, Trace.space_run. rewrite repeat_length. lia.
Qed.

Lemma space_chunks_stop (k : Z) : k <= 0 -> Trace.space_chunks k = [].
Proof.
  intros Hk. unfold Trace.space_chunks.
  destruct (Z.leb_spec k 0); [reflexivity | lia].
Qed.

Lemma space_chunks_step (k : Z) :
  0 < k ->
  Trace.space_chunks k
  = Trace.space_run (Z.min k 40) :: Trace.space_chunks (k - 40).
Proof.
  intros Hk. unfold Trace.space_chunks at 1.
  destruct (Z.leb_spec k 0) as [|_]; [lia|].
  destruct (Z_lt_le_dec k 40) as [Hlt|Hge].
  - rewrite Z.div_small, Z.mod_small, Z.min_l by lia.
    rewrite space_chunks_stop by lia.
    destruct (Z.eqb_spec k 0); [lia | reflexivity].
  - assert (Ediv : k / 40 = (k - 40) / 40 + 1).
    { rewrite <- Z.div_add by lia. f_equal. ring. }
    assert (Emod : k mod 40 = (k - 40) mod 40).
    { rewrite <- (Z.mod_add (k - 40) 1 40) by lia. f_equal. ring. }
    rewrite Ediv, Emod, Z.min_r by lia.
    pose proof (Z.div_pos (k - 40) 40 ltac:(lia) ltac:(lia)).
    rewrite Z2Nat.inj_add by lia.
    rewrite Nat.add_comm. simpl repeat. simpl app. f_equal.
    destruct (Z_le_gt_dec (k - 40) 0) as [H0|Hpos].
    + assert (k - 40 = 0) as -> by lia. reflexivity.
    + unfold Trace.space_chunks.
      destruct (Z.leb_spec (k - 40) 0); [lia | reflexivity].
Qed.

Lemma concat_space_chunks (k : Z) :
  concat (Trace.space_chunks k) = Trace.space_run k.
Proof.
  induction k as [k Hk|k Hk IH] using chunk_steps_ind.
  - rewrite space_chunks_stop by assumption. unfold Trace.space_run.
    now replace (Z.to_nat k) with 0%nat by lia.
  - rewrite space_chunks_step by assumption. simpl. rewrite IH.
    destruct (Z_lt_le_dec k 40).
    + rewrite Z.min_l by lia. unfold Trace.space_run at 2.
      replace (Z.to_nat (k - 40)) with 0%nat by lia. apply app_nil_r.
    + rewrite Z.min_r, space_run_add by lia. f_equal. ring.
Qed.


(** The slice of the scratch buffer the loop takes is the next chunk, and
    taking it never panics. *)
Lemma slice_of_spaces (k : Z) :
  0 < k ->
  slice_to spaces (if k >? len spaces then len spaces else k)
  = Done (Trace.space_run (Z.min k 40)).
Proof.
  intros Hk. change (len spaces) with 40.
  assert (E : (if k >? 40 then 40 else k) = Z.min k 40).
  { destruct (Z.gtb_spec k 40); lia. }
  rewrite E. unfold slice_to. change (len spaces) with 40.
  destruct (Z.leb_spec 0 (Z.min k 40)); [|lia].
  destruct (Z.leb_spec (Z.min k 40) 40); [|lia]. simpl. f_equal.
  unfold spaces, Trace.space_run.
  replace 40%nat with (Z.to_nat (Z.min k 40) + (40 - Z.to_nat (Z.min k 40)))%nat
    at 1 by lia.
  rewrite repeat_app, firstn_app, repeat_length, Nat.sub_diag, firstn_O.
  rewrite app_nil_r. apply firstn_all2. rewrite repeat_length. lia.
Qed.

(** ** Serving a list of requests *)

Lemma outcome_cons_ok (c : io.call) (calls : list io.call) :
  io.failure c = None -> Trace.outcome (c :: calls) = Trace.outcome calls.
Proof.
  intros Hc. unfold Trace.outcome. simpl. rewrite Hc.
  destruct (map io.failure calls); reflexivity.
Qed.

Lemma outcome_snoc (calls : list io.call) (c : io.call) :
  Trace.outcome (calls ++ [c]) = io.failure c.
Proof. unfold Trace.outcome. rewrite map_app. simpl. apply last_last. Qed.

Lemma outcome_app_ok (calls1 calls2 : list io.call) :
  Trace.outcome calls1 = None ->
  Trace.outcome (calls1 ++ calls2) = Trace.outcome calls2.
Proof.
  intros H1. destruct calls2 as [|c calls2] using rev_ind.
  - now rewrite app_nil_r.
  - now rewrite app_assoc, !outcome_snoc.
Qed.

Section ServeFacts.
Context {W : Type}.
Variable Write : io.Writer W.

Lemma serve_app (reqs1 reqs2 : list (list Byte.byte)) (w : W) :
  Trace.serve Write (reqs1 ++ reqs2) w
  = let '(calls1, w1) := Trace.serve Write reqs1 w in
    match Trace.outcome calls1 with
    | Some _ => (calls1, w1)
    | None =>
        let '(calls2, w2) := Trace.serve Write reqs2 w1 in
        (calls1 ++ calls2, w2)
    end.
Proof.
  revert w. induction reqs1 as [|p reqs1 IH]; intros w; simpl.
  - destruct (Trace.serve Write reqs2 w); reflexivity.
  - destruct (Write p w) as [[k e] w']. destruct e as [e|].
    + reflexivity.
    + rewrite IH. destruct (Trace.serve Write reqs1 w') as [calls1 w1].
      rewrite outcome_cons_ok by reflexivity.
      destruct (Trace.outcome calls1); [reflexivity|].
      destruct (Trace.serve Write reqs2 w1); reflexivity.
Qed.

(** The calls carry the requests in order, as far as the writer got. *)
Lemma serve_payloads (reqs : list (list Byte.byte)) (w : W) :
  let calls := fst (Trace.serve Write reqs w) in
  map io.payload calls = firstn (List.length calls) reqs.
Proof.
  revert w. induction reqs as [|p reqs IH]; intros w; simpl.
  - reflexivity.
  - destruct (Write p w) as [[k e] w']. destruct e as [e|]; simpl.
    + reflexivity.
    + specialize (IH w'). destruct (Trace.serve Write reqs w').
      simpl in *. now rewrite IH.
Qed.

(** Without a failure, every request was passed, once. *)
Lemma serve_complete (reqs : list (list Byte.byte)) (w : W) :
  let calls := fst (Trace.serve Write reqs w) in
  Trace.outcome calls = None -> map io.payload calls = reqs.
Proof.
  revert w. induction reqs as [|p reqs IH]; intros w; simpl.
  - reflexivity.
  - destruct (Write p w) as [[k e] w']. destruct e as [e|]; simpl.
    + discriminate.
    + specialize (IH w'). destruct (Trace.serve Write reqs w').
      simpl in *. rewrite outcome_cons_ok by reflexivity.
      intros H. now rewrite IH.
Qed.

(** Only the last call can have failed. *)
Lemma serve_fails_last (reqs : list (list Byte.byte)) (w : W) :
  let calls := fst (Trace.serve Write reqs w) in
  Forall (fun c => io.failure c = None) (removelast calls).
Proof.
  revert w. induction reqs as [|p reqs IH]; intros w; simpl.
  - constructor.
  - destruct (Write p w) as [[k e] w']. destruct e as [e|].
    + constructor.
    + specialize (IH w'). destruct (Trace.serve Write reqs w') as [calls w''].
      simpl fst in *. destruct calls as [|c calls].
      * constructor.
      * change (removelast (?a :: c :: calls))
          with (a :: removelast (c :: calls)).
        constructor; [reflexivity | exact IH].
Qed.

(** The recording writer sees what the writer behind it is served, and
    leaves that writer as a direct run would. *)
Lemma serve_recording (reqs : list (list Byte.byte)) (w : W)
  (log : list io.call) :
  Trace.serve (io.recording Write) reqs (w, log)
  = let '(calls, w') := Trace.serve Write reqs w in
    (calls, (w', log ++ calls)).
Proof.
  revert w log. induction reqs as [|p reqs IH]; intros w log; simpl.
  - now rewrite app_nil_r.
  - unfold io.recording at 1. simpl.
    destruct (Write p w) as [[k e] w']. destruct e as [e|].
    + reflexivity.
    + rewrite IH. destruct (Trace.serve Write reqs w').
      now rewrite <- app_assoc.
Qed.
End ServeFacts.


(** ** The loop over the spaces, the closure and WriteTo *)

Section WriteToFacts.
Context {W : Type}.
Variable Write : io.Writer W.

Lemma space_loop_unfold (k : Z) (st : locals W) :
  space_loop Write k st
  = if k >? 0 then
      match
        slice_to spaces (if k >? len spaces then len spaces else k)
      with
      | Panic => Panic
      | Done p =>
          let '(thisN, e, w) := Write p (wr st) in
          let st' := {| n := int_add (n st) thisN; err := e; wr := w |} in
          match e with
          | Some _ => Done (Return st')
          | None => space_loop Write (k - len spaces) st'
          end
      end
    else Done (Next st).
Proof.
  rewrite space_loop_equation_1.
  destruct (Z_gt_dec k 0); destruct (Z.gtb_spec k 0); try lia; reflexivity.
Qed.

(** The loop passes the chunks of the run to the writer until one fails;
    it never panics. *)
Lemma space_loop_serve (k n0 : Z) (w : W) :
  space_loop Write k {| n := n0; err := None; wr := w |}
  = let '(calls, w') := Trace.serve Write (Trace.space_chunks k) w in
    let st' := {| n := Trace.tally calls n0;
                  err := Trace.outcome calls; wr := w' |} in
    Done (match Trace.outcome calls with
          | Some _ => Return st'
          | None => Next st'
          end).
Proof.
  revert n0 w. induction k as [k Hk|k Hk IH] using chunk_steps_ind;
    intros n0 w; rewrite space_loop_unfold.
  - destruct (Z.gtb_spec k 0); [lia|].
    now rewrite space_chunks_stop by assumption.
  - destruct (Z.gtb_spec k 0); [|lia].
    rewrite slice_of_spaces, space_chunks_step by assumption. simpl.
    destruct (Write (Trace.space_run (Z.min k 40)) w) as [[thisN e] w1].
    destruct e as [e|].
    + reflexivity.
    + change (len spaces) with 40. rewrite IH.
      destruct (Trace.serve Write (Trace.space_chunks (k - 40)) w1)
        as [calls w2].
      rewrite outcome_cons_ok by reflexivity. reflexivity.
Qed.

Lemma WriteTo_func1_serve (t : Token) (n0 : Z) (w : W) :
  WriteTo_func1 Write (Some t) {| n := n0; err := None; wr := w |}
  = let '(calls, w') := Trace.serve Write (Trace.requests t) w in
    Done {| n := Trace.tally calls n0;
            err := Trace.outcome calls; wr := w' |}.
Proof.
  unfold WriteTo_func1, Trace.requests. simpl.
  rewrite space_loop_serve, serve_app.
  destruct (Trace.serve Write (Trace.space_chunks (SpacesBefore t)) w)
    as [calls1 w1].
  destruct (Trace.outcome calls1) as [e|] eqn:E1; simpl.
  - now rewrite E1.
  - destruct (Write (Bytes t) w1) as [[thisN e] w2].
    assert (E : forall c,
               Trace.tally (calls1 ++ [c]) n0
               = int_add (Trace.tally calls1 n0) (io.reported c)).
    { intros c. now rewrite tally_app. }
    destruct e as [e|]; now rewrite E, outcome_snoc.
Qed.

(** Once [err] is set, the closure returns at once for every token
    pointer, a nil one included. *)
Lemma range_WriteTo_func1_failed (ps : Tokens) (st : locals W) :
  err st <> None -> range (WriteTo_func1 Write) ps st = Done st.
Proof.
  intros Hst. induction ps as [|p ps IH]; simpl.
  - reflexivity.
  - unfold WriteTo_func1 at 1. destruct (err st); [exact IH | congruence].
Qed.

Lemma range_WriteTo_func1_serve (toks : list Token) (rest : Tokens)
  (n0 : Z) (w : W) :
  range (WriteTo_func1 Write) (map Some toks ++ rest)
    {| n := n0; err := None; wr := w |}
  = let '(calls, w') := Trace.serve Write (Trace.plan toks) w in
    let st' := {| n := Trace.tally calls n0;
                  err := Trace.outcome calls; wr := w' |} in
    match Trace.outcome calls with
    | Some _ => Done st'
    | None => range (WriteTo_func1 Write) rest st'
    end.
Proof.
  revert n0 w. induction toks as [|t toks IH]; intros n0 w.
  - reflexivity.
  - cbn [map app range Trace.plan flat_map].
    rewrite WriteTo_func1_serve, serve_app.
    destruct (Trace.serve Write (Trace.requests t) w) as [calls1 w1].
    cbn [bind].
    destruct (Trace.outcome calls1) as [e|] eqn:E1.
    + rewrite E1. apply range_WriteTo_func1_failed. simpl. congruence.
    + change (flat_map Trace.requests toks) with (Trace.plan toks).
      rewrite IH.
      destruct (Trace.serve Write (Trace.plan toks) w1) as [calls2 w2].
      now rewrite tally_app, outcome_app_ok.
Qed.

(** WriteTo on a tree whose tokens are [toks], followed by any token
    pointers [rest] that are not reached unless every write succeeds. *)
Lemma WriteTo_serve (ts : option TokenSeq) (toks : list Token)
  (rest : Tokens) (w : W) :
  TokenSeq_Tokens ts = Done (map Some toks ++ rest) ->
  let '(calls, w') := Trace.serve Write (Trace.plan toks) w in
  rest = [] \/ Trace.outcome calls <> None ->
  WriteTo Write ts w
  = Done (Trace.tally calls 0, Trace.outcome calls, w').
Proof.
  rewrite TokenSeq_Tokens_flatten. intros [= Hfl].
  pose proof (range_WriteTo_func1_serve toks rest 0 w) as Hrun.
  destruct (Trace.serve Write (Trace.plan toks) w) as [calls w'].
  intros Hrest. unfold WriteTo, TokenSeq_EachToken.
  rewrite EachToken_flatten, Hfl, Hrun.
  destruct (Trace.outcome calls) as [e|]; [reflexivity|].
  destruct Hrest as [->|]; [reflexivity | congruence].
Qed.
End WriteToFacts.

(** ** Recording writers and the in-memory buffer *)

Section RecordingFacts.
Context {W : Type}.
Variable Write : io.Writer W.

(** WriteTo on a recording writer: the log grows by the calls served. *)
Lemma WriteTo_recording (ts : option TokenSeq) (toks : list Token)
  (rest : Tokens) (w : W) (log : list io.call) :
  TokenSeq_Tokens ts = Done (map Some toks ++ rest) ->
  let calls := fst (Trace.serve Write (Trace.plan toks) w) in
  let w' := snd (Trace.serve Write (Trace.plan toks) w) in
  rest = [] \/ Trace.outcome calls <> None ->
  WriteTo (io.recording Write) ts (w, log)
  = Done (Trace.tally calls 0, Trace.outcome calls, (w', log ++ calls)).
Proof.
  intros Hts. pose proof (WriteTo_serve (io.recording Write) ts toks rest
                            (w, log) Hts) as H.
  rewrite serve_recording in H.
  destruct (Trace.serve Write (Trace.plan toks) w) as [calls w'].
  exact H.
Qed.

(** A list of token pointers is a run of tokens, followed by nothing or
    by a nil pointer and more. *)
Lemma tokens_until_nil (ps : Tokens) :
  exists (toks : list Token) (rest : Tokens),
    ps = map Some toks ++ rest /\ (rest = [] \/ exists r, rest = None :: r).
Proof.
  induction ps as [|p ps (toks & rest & -> & Hrest)].
  - exists [], []. auto.
  - destruct p as [t|].
    + exists (t :: toks), rest. auto.
    + exists [], (None :: map Some toks ++ rest). eauto.
Qed.

(** When WriteTo returns, it has served the tokens up to the first
    failure, and met no nil token pointer before it. *)
Lemma WriteTo_recording_returns (ts : option TokenSeq) (w : W)
  (log : list io.call) (result : Z * option error * (W * list io.call)) :
  WriteTo (io.recording Write) ts (w, log) = Done result ->
  exists (toks : list Token) (rest : Tokens),
    TokenSeq_Tokens ts = Done (map Some toks ++ rest)
    /\ let calls := fst (Trace.serve Write (Trace.plan toks) w) in
       let w' := snd (Trace.serve Write (Trace.plan toks) w) in
       (rest = [] \/ Trace.outcome calls <> None)
       /\ result
          = (Trace.tally calls 0, Trace.outcome calls, (w', log ++ calls)).
Proof.
  intros Hrun.
  destruct (tokens_until_nil (flatten (OfTokenSeq ts)))
    as (toks & rest & Hfl & Hrest).
  exists toks, rest. rewrite TokenSeq_Tokens_flatten, Hfl.
  split; [reflexivity|]. cbv zeta.
  assert (Hcase : rest = []
                  \/ Trace.outcome
                       (fst (Trace.serve Write (Trace.plan toks) w))
                     <> None).
  { destruct Hrest as [->|[r ->]]; [now left|]. right. intros Hok.
    unfold WriteTo, TokenSeq_EachToken in Hrun.
    rewrite EachToken_flatten, Hfl, range_WriteTo_func1_serve in Hrun.
    rewrite serve_recording in Hrun.
    destruct (Trace.serve Write (Trace.plan toks) w) as [calls w'].
    simpl in Hok. rewrite Hok in Hrun. simpl in Hrun. discriminate. }
  split; [exact Hcase|].
  assert (Hts : TokenSeq_Tokens ts = Done (map Some toks ++ rest))
    by now rewrite TokenSeq_Tokens_flatten, Hfl.
  pose proof (WriteTo_recording ts toks rest w log Hts Hcase) as H.
  rewrite H in Hrun. now injection Hrun.
Qed.
End RecordingFacts.

Lemma serve_buffer (reqs : list (list Byte.byte)) (buf : list Byte.byte) :
  Trace.serve io.buffer reqs buf
  = (map (fun p => io.mkCall p (len p) None) reqs, buf ++ concat reqs).
Proof.
  revert buf. induction reqs as [|p reqs IH]; intros buf; simpl.
  - now rewrite app_nil_r.
  - now rewrite IH, <- app_assoc.
Qed.

Lemma outcome_all_ok (calls : list io.call) :
  Forall (fun c => io.failure c = None) calls -> Trace.outcome calls = None.
Proof.
  induction 1 as [|c calls Hc _ IH]; [reflexivity|].
  now rewrite outcome_cons_ok.
Qed.

Lemma len_app {A : Type} (p q : list A) : len (p ++ q) = len p + len q.
Proof. unfold len. rewrite length_app. lia. Qed.

Lemma total_reported_buffer (reqs : list (list Byte.byte)) :
  Trace.total_reported (map (fun p => io.mkCall p (len p) None) reqs)
  = len (concat reqs).
Proof.
  induction reqs as [|p reqs IH]; simpl; [reflexivity|].
  now rewrite len_app, IH.
Qed.

Lemma concat_requests (t : Token) :
  concat (Trace.requests t) = Trace.render_token t.
Proof.
  unfold Trace.requests, Trace.render_token.
  rewrite concat_app, concat_space_chunks. simpl. now rewrite app_nil_r.
Qed.

Lemma concat_plan (toks : list Token) :
  concat (Trace.plan toks) = Trace.render toks.
Proof.
  induction toks as [|t toks IH]; simpl; [reflexivity|].
  now rewrite concat_app, concat_requests, IH.
Qed.

Lemma render_app (toks1 toks2 : list Token) :
  Trace.render (toks1 ++ toks2) = Trace.render toks1 ++ Trace.render toks2.
Proof. apply flat_map_app. Qed.

(** WriteTo into the buffer appends the text of the tokens. *)
Lemma WriteTo_buffer (ts : option TokenSeq) (toks : list Token)
  (buf : list Byte.byte) :
  TokenSeq_Tokens ts = Done (map Some toks) ->
  WriteTo io.buffer ts buf
  = Done (int_wrap (len (Trace.render toks)), None, buf ++ Trace.render toks).
Proof.
  intros Hts. rewrite <- (app_nil_r (map Some toks)) in Hts.
  pose proof (WriteTo_serve io.buffer ts toks [] buf Hts) as H.
  rewrite serve_buffer in H. rewrite H by now left.
  rewrite outcome_all_ok by (apply Forall_map, Forall_forall; reflexivity).
  rewrite tally_wraps_total by (vm_compute; split; discriminate).
  now rewrite total_reported_buffer, concat_plan.
Qed.

Lemma tokenizes_render (B : list Byte.byte) (toks : list Token) :
  lexer.tokenizes B toks -> Trace.render toks = B.
Proof.
  induction 1 as [|kind k b rest toks Hk _ IH]; simpl.
  - reflexivity.
  - unfold Trace.render_token. simpl.
    change (flat_map Trace.render_token toks) with (Trace.render toks).
    now rewrite IH, <- app_assoc.
Qed.

Lemma bytes_passed_payloads (calls : list io.call) :
  Trace.bytes_passed calls = concat (map io.payload calls).
Proof. unfold Trace.bytes_passed. apply flat_map_concat_map. Qed.

(** ** Serialising a tree *)

(** C2.  A tree whose tokens are those the tokenizer cut the source [B]
    into, with no edit since, is written back as exactly the bytes [B]:
    into an in-memory buffer, which then holds [B] (and WriteTo returns the
    length of [B] and no error), and to any writer that fails on no write,
    which is passed the bytes of [B] in order. *)
Theorem WriteTo_round_trip (B : list Byte.byte) (toks : list Token)
  (ts : option TokenSeq) :
  lexer.tokenizes B toks ->
  TokenSeq_Tokens ts = Done (map Some toks) ->
  WriteTo io.buffer ts [] = Done (int_wrap (len B), None, B)
  /\ (len B <= int_max -> WriteTo io.buffer ts [] = Done (len B, None, B))
  /\ (forall (W : Type) (Write : io.Writer W) (w w' : W) (count : Z)
        (log : list io.call),
        WriteTo (io.recording Write) ts (w, []) = Done (count, None, (w', log)) ->
        Trace.bytes_passed log = B).
Proof.
  intros Hlex Hts. pose proof (tokenizes_render B toks Hlex) as HB.
  assert (Hbuf : WriteTo io.buffer ts [] = Done (int_wrap (len B), None, B)).
  { rewrite (WriteTo_buffer ts toks [] Hts), HB. reflexivity. }
  repeat split.
  - exact Hbuf.
  - intros Hlen. rewrite Hbuf, int_wrap_small; [reflexivity|].
    split; [|exact Hlen]. unfold len. transitivity 0; [|lia].
    vm_compute. discriminate.
  - intros W Write w w' count log Hrun.
    rewrite <- (app_nil_r (map Some toks)) in Hts.
    rewrite (WriteTo_recording Write ts toks [] w [] Hts) in Hrun
      by now left.
    injection Hrun as _ Hok _ Hlog. subst log.
    rewrite bytes_passed_payloads, serve_complete by exact Hok.
    now rewrite concat_plan.
Qed.

Lemma sample_source_tokenizes :
  lexer.tokenizes Samples.source Samples.source_tokens.
Proof.
  apply (lexer.tokenizes_token 0 0 (Samples.bytes_of "a")
           (Samples.bytes_of " = 1  # c")); [lia|].
  apply (lexer.tokenizes_token 0 1 (Samples.bytes_of "=")
           (Samples.bytes_of " 1  # c")); [lia|].
  apply (lexer.tokenizes_token 0 1 (Samples.bytes_of "1")
           (Samples.bytes_of "  # c")); [lia|].
  apply (lexer.tokenizes_token 0 2 (Samples.bytes_of "# c") []); [lia|].
  apply (lexer.tokenizes_token 0 0 [] []); [lia|].
  apply lexer.tokenizes_end.
Defined.

Lemma WriteTo_round_trip_witness :
  lexer.tokenizes Samples.source Samples.source_tokens
  /\ TokenSeq_Tokens (Some Samples.tree)
     = Done (map Some Samples.source_tokens)
  /\ WriteTo io.buffer (Some Samples.tree) []
     = Done (10, None, Samples.source).
Proof.
  split; [exact sample_source_tokenizes|].
  split; [reflexivity|].
  exact (proj1 (WriteTo_round_trip Samples.source Samples.source_tokens
                  (Some Samples.tree) sample_source_tokenizes eq_refl)).
Defined.

(** C3.  A token with [SpacesBefore = k], [k >= 0], and bytes [b] is
    written as [k] space characters followed by [b]: alone into a buffer,
    in its place among the other tokens of a tree, and as the bytes passed
    to any writer that fails on none of the token's writes.  This holds for
    every [k], on either side of the size of the scratch buffer, and for an
    empty [b]. *)
Theorem WriteTo_spaces_then_bytes (t : Token) :
  0 <= SpacesBefore t ->
  let k := SpacesBefore t in
  let b := Bytes t in
  List.length (repeat Byte.x20 (Z.to_nat k)) = Z.to_nat k
  /\ len (repeat Byte.x20 (Z.to_nat k)) = k
  /\ (forall buf,
        WriteTo io.buffer (Some [OfToken (Some t)]) buf
        = Done (int_wrap (k + len b), None,
                buf ++ repeat Byte.x20 (Z.to_nat k) ++ b))
  /\ (forall ts before after buf,
        TokenSeq_Tokens ts = Done (map Some (before ++ t :: after)) ->
        exists count,
          WriteTo io.buffer ts buf
          = Done (count, None,
                  buf ++ Trace.render before
                  ++ (repeat Byte.x20 (Z.to_nat k) ++ b)
                  ++ Trace.render after))
  /\ (forall (W : Type) (Write : io.Writer W) (n0 : Z) (w : W)
        (log : list io.call),
        exists calls w',
          WriteTo_func1 (io.recording Write) (Some t)
            {| n := n0; err := None; wr := (w, log) |}
          = Done {| n := Trace.tally calls n0; err := Trace.outcome calls;
                    wr := (w', log ++ calls) |}
          /\ (Trace.outcome calls = None ->
              Trace.bytes_passed calls = repeat Byte.x20 (Z.to_nat k) ++ b)).
Proof.
  intros Hk k b. repeat split.
  - apply repeat_length.
  - now apply len_space_run.
  - intros buf.
    rewrite (WriteTo_buffer _ [t] buf) by reflexivity.
    simpl. rewrite app_nil_r. unfold Trace.render_token.
    now rewrite len_app, len_space_run.
  - intros ts before after buf Hts.
    rewrite (WriteTo_buffer ts _ buf Hts), render_app. eexists.
    simpl. unfold Trace.render_token at 2, Trace.space_run.
    fold k b. now rewrite <- !app_assoc.
  - intros W Write n0 w log.
    exists (fst (Trace.serve Write (Trace.requests t) w)),
           (snd (Trace.serve Write (Trace.requests t) w)).
    rewrite WriteTo_func1_serve, serve_recording.
    pose proof (serve_complete Write (Trace.requests t) w) as Hall.
    destruct (Trace.serve Write (Trace.requests t) w) as [calls w'].
    simpl in *. split; [reflexivity|]. intros Hok.
    now rewrite bytes_passed_payloads, Hall, concat_requests.
Qed.

Lemma WriteTo_spaces_then_bytes_witness :
  WriteTo io.buffer (Some [OfToken (Some (Samples.tok 0 "ab"))]) []
  = Done (2, None, Samples.bytes_of "ab")
  /\ WriteTo io.buffer (Some [OfToken (Some (Samples.tok 1 "ab"))]) []
     = Done (3, None, repeat Byte.x20 1 ++ Samples.bytes_of "ab")
  /\ WriteTo io.buffer (Some [OfToken (Some (Samples.tok 39 "ab"))]) []
     = Done (41, None, repeat Byte.x20 39 ++ Samples.bytes_of "ab")
  /\ WriteTo io.buffer (Some [OfToken (Some (Samples.tok 40 "ab"))]) []
     = Done (42, None, repeat Byte.x20 40 ++ Samples.bytes_of "ab")
  /\ WriteTo io.buffer (Some [OfToken (Some (Samples.tok 41 "ab"))]) []
     = Done (43, None, repeat Byte.x20 41 ++ Samples.bytes_of "ab")
  /\ WriteTo io.buffer (Some [OfToken (Some (Samples.tok 1000 "ab"))]) []
     = Done (1002, None, repeat Byte.x20 1000 ++ Samples.bytes_of "ab")
  /\ WriteTo io.buffer (Some [OfToken (Some (Samples.tok 41 EmptyString))]) []
     = Done (41, None, repeat Byte.x20 41).
Proof.
  assert (H : forall k s, 0 <= k ->
              WriteTo io.buffer (Some [OfToken (Some (Samples.tok k s))]) []
              = Done (int_wrap (k + len (Samples.bytes_of s)), None,
                      repeat Byte.x20 (Z.to_nat k) ++ Samples.bytes_of s)).
  { intros k s Hk.
    exact (proj1 (proj2 (proj2
             (WriteTo_spaces_then_bytes (Samples.tok k s) Hk))) []). }
  repeat split; (rewrite H by lia); reflexivity.
Defined.

(** The same six space counts, and an empty payload, run through the
    model. *)
Example space_runs_executed :
  forall k, In k [0; 1; 39; 40; 41; 1000] ->
    WriteTo io.buffer (Some [OfToken (Some (Samples.tok k "ab"))]) []
    = Done (k + 2, None, repeat Byte.x20 (Z.to_nat k) ++ Samples.bytes_of "ab")
    /\ WriteTo io.buffer (Some [OfTokens [Some (Samples.tok k EmptyString)]]) []
       = Done (k, None, repeat Byte.x20 (Z.to_nat k)).
Proof.
  intros k Hk. simpl in Hk.
  repeat (destruct Hk as [<-|Hk]; [vm_compute; split; reflexivity|]).
  contradiction.
Qed.

(** C7.  A tree that flattens to no token at all makes WriteTo issue no
    write and return the count 0 and a nil error, whatever the writer. *)
Theorem WriteTo_no_tokens (ts : option TokenSeq) :
  TokenSeq_Tokens ts = Done [] ->
  forall (W : Type) (Write : io.Writer W) (w : W),
    WriteTo (io.recording Write) ts (w, []) = Done (0, None, (w, []))
    /\ WriteTo Write ts w = Done (0, None, w).
Proof.
  intros Hts W Write w. split.
  - exact (WriteTo_recording Write ts [] [] w [] Hts (or_introl eq_refl)).
  - exact (WriteTo_serve Write ts [] [] w Hts (or_introl eq_refl)).
Qed.

Lemma WriteTo_no_tokens_witness :
  TokenSeq_Tokens (Some Samples.hollow) = Done []
  /\ WriteTo (io.recording Samples.limited) (Some Samples.hollow) (0, [])
     = Done (0, None, (0, [])).
Proof.
  split; [reflexivity|].
  exact (proj1 (WriteTo_no_tokens (Some Samples.hollow) eq_refl
                  Z Samples.limited 0)).
Defined.

(** ** The writes of a space run *)

Lemma sum_lens_concat {A : Type} (l : list (list A)) :
  Trace.sum (map len l) = len (concat l).
Proof.
  induction l as [|p l IH]; simpl; [reflexivity|].
  now rewrite len_app, IH.
Qed.



Lemma sizes_payloads (calls : list io.call) :
  Trace.sizes calls = map len (map io.payload calls).
Proof. unfold Trace.sizes. now rewrite map_map. Qed.



(** A run of 100 spaces goes out as writes of 40, 40 and 20 bytes. *)
Example space_run_of_100 :
  space_loop (io.recording Samples.limited) 100
    {| n := 0; err := None; wr := (1000, []) |}
  = Done (Next
            {| n := 100; err := None;
               wr := (900, [io.mkCall (repeat Byte.x20 40) 40 None;
                            io.mkCall (repeat Byte.x20 40) 40 None;
                            io.mkCall (repeat Byte.x20 20) 20 None]) |}).
Proof. reflexivity. Qed.

(** With room for 50 bytes only, the second write of a run of 100 spaces
    fails, and the third is never issued. *)
Example space_run_cut_short :
  space_loop (io.recording Samples.limited) 100
    {| n := 0; err := None; wr := (50, []) |}
  = Done (Return
            {| n := 50; err := Some "no space left"%string;
               wr := (0, [io.mkCall (repeat Byte.x20 40) 40 None;
                          io.mkCall (repeat Byte.x20 40) 10
                            (Some "no space left"%string)]) |}).
Proof. reflexivity. Qed.

(** ** Negative space counts *)

Section NegativeSpaces.
Context {W : Type}.
Variable Write : io.Writer W.


End NegativeSpaces.



(** A token with seven spaces less than none is written as its bytes. *)
Example negative_spaces_executed :
  WriteTo (io.recording io.buffer)
    (Some [OfToken (Some (Samples.tok (-7) "x"))]) ([], [])
  = Done (1, None,
          (Samples.bytes_of "x", [io.mkCall (Samples.bytes_of "x") 1 None])).
Proof. reflexivity. Qed.

(** ** The count, short writes and failures *)


Lemma all_ok_of_outcome (calls : list io.call) :
  Forall (fun c => io.failure c = None) (removelast calls) ->
  Trace.outcome calls = None ->
  Forall (fun c => io.failure c = None) calls.
Proof.
  destruct calls as [|c calls _] using rev_ind; [constructor|].
  rewrite removelast_last, outcome_snoc. intros Hinit Hc.
  apply Forall_app. split; [exact Hinit | now constructor].
Qed.

Lemma tally_is_int (calls : list io.call) : is_int (Trace.tally calls 0).
Proof.
  rewrite tally_wraps_total by (vm_compute; split; discriminate).
  apply int_wrap_is_int.
Qed.

Lemma TokenSeq_Tokens_flat (toks : list Token) :
  TokenSeq_Tokens (Some [OfTokens (map Some toks)])
  = Done (map Some toks ++ []).
Proof.
  rewrite TokenSeq_Tokens_flatten, flatten_OfTokenSeq. simpl.
  now rewrite flatten_OfTokens.
Qed.

(** C10.  The count WriteTo returns is the sum of the counts the writer
    reported for the writes issued, added up as [int]s (it is the exact sum
    whenever that is an [int]); and the writes issued are the chunks of
    spaces and the bytes of the tokens, each passed once and whole, up to
    the first error: a count that falls short of a write, reported without
    an error, changes the count returned and none of the writes. *)
Theorem count_sums_reported (W : Type) (Write : io.Writer W)
  (ts : option TokenSeq) (w w' : W) (count : Z) (e : option error)
  (log : list io.call) :
  WriteTo (io.recording Write) ts (w, []) = Done (count, e, (w', log)) ->
  count = Trace.tally log 0
  /\ count = int_wrap (Trace.total_reported log)
  /\ (is_int (Trace.total_reported log) -> count = Trace.total_reported log)
  /\ (forall toks,
        TokenSeq_Tokens ts = Done (map Some toks) ->
        map io.payload log = firstn (List.length log) (Trace.plan toks)
        /\ (e = None -> map io.payload log = Trace.plan toks)).
Proof.
  intros Hrun.
  assert (Hcount : count = Trace.tally log 0).
  { destruct (WriteTo_recording_returns Write ts w [] _ Hrun)
      as (toks & rest & _ & _ & [= -> _ _ ->]). reflexivity. }
  assert (Hwrap : count = int_wrap (Trace.total_reported log)).
  { rewrite Hcount. apply tally_wraps_total. vm_compute. split; discriminate. }
  repeat split.
  - exact Hcount.
  - exact Hwrap.
  - intros Hint. rewrite Hwrap. now apply int_wrap_small.
  - rewrite <- (app_nil_r (map Some toks)) in H.
    rewrite (WriteTo_recording Write ts toks [] w [] H) in Hrun by now left.
    injection Hrun as _ _ _ <-. apply serve_payloads.
  - intros ->. rewrite <- (app_nil_r (map Some toks)) in H.
    rewrite (WriteTo_recording Write ts toks [] w [] H) in Hrun by now left.
    injection Hrun as _ Hok _ <-. now apply serve_complete.
Qed.

Lemma count_sums_reported_witness :
  WriteTo (io.recording Samples.lossy) (Some Samples.lossy_tokens) ([], [])
  = Done (40, None, (Samples.lossy_kept, Samples.lossy_log))
  /\ 40 = Trace.total_reported Samples.lossy_log
  /\ map io.payload Samples.lossy_log
     = [repeat Byte.x20 40; repeat Byte.x20 1; Samples.bytes_of "ab";
        Samples.bytes_of "c"].
Proof.
  assert (Hrun : WriteTo (io.recording Samples.lossy)
                   (Some Samples.lossy_tokens) ([], [])
                 = Done (40, None, (Samples.lossy_kept, Samples.lossy_log)))
    by reflexivity.
  split; [exact Hrun|].
  destruct (count_sums_reported _ _ _ _ _ _ _ _ Hrun)
    as (_ & _ & Hexact & Hplan).
  split.
  - apply Hexact. vm_compute. split; discriminate.
  - apply (Hplan [Samples.tok 41 "ab"; Samples.tok 0 "c"]); reflexivity.
Defined.

(** A writer that reports the largest [int] for each of two writes makes
    the count wrap. *)
Example count_wraps :
  WriteTo (io.recording Samples.boastful)
    (Some [OfTokens [Some (Samples.tok 0 "a"); Some (Samples.tok 0 "b")]])
    (tt, [])
  = Done (-2, None,
          (tt, [io.mkCall (Samples.bytes_of "a") int_max None;
                io.mkCall (Samples.bytes_of "b") int_max None])).
Proof. reflexivity. Qed.



(** * Further properties of the two packages *)

(** ** Tokens() and the shape of a tree *)


(** X2.  Two trees with the same [Tokens()] cannot be told apart by a traversal
    with any callback, nor by WriteTo with any writer: the grouping of the
    tokens into sequences and flat lists has no effect. *)
Theorem same_tokens_same_behaviour (ts1 ts2 : option TokenSeq) :
  TokenSeq_Tokens ts1 = TokenSeq_Tokens ts2 ->
  (forall (S : Type) (cb : TokenCallback S) (s : S),
      TokenSeq_EachToken ts1 cb s = TokenSeq_EachToken ts2 cb s)
  /\ (forall (W : Type) (Write : io.Writer W) (w : W),
        WriteTo Write ts1 w = WriteTo Write ts2 w).
Proof.
  rewrite !TokenSeq_Tokens_flatten. intros [= E]. split.
  - intros S cb s. unfold TokenSeq_EachToken.
    now rewrite !EachToken_flatten, E.
  - intros W Write w. unfold WriteTo, TokenSeq_EachToken.
    now rewrite !EachToken_flatten, E.
Qed.

Lemma same_tokens_same_behaviour_witness :
  TokenSeq_Tokens (Some Samples.tree)
  = TokenSeq_Tokens (Some [OfTokens (map Some Samples.source_tokens)])
  /\ WriteTo (io.recording Samples.limited) (Some Samples.tree) (4, [])
     = WriteTo (io.recording Samples.limited)
         (Some [OfTokens (map Some Samples.source_tokens)]) (4, []).
Proof.
  split; [reflexivity|].
  exact (proj2 (same_tokens_same_behaviour (Some Samples.tree)
                  (Some [OfTokens (map Some Samples.source_tokens)]) eq_refl)
           _ (io.recording Samples.limited) (4, [])).
Defined.



(** ** Panics of WriteTo *)

(** X4.  A nil token pointer in the tree makes WriteTo panic when it is reached,
    and it is reached unless a write for the tokens before it has failed:
    if the tokens before it are written with an error, WriteTo on the whole
    tree returns that same result. *)
Theorem WriteTo_nil_token (W : Type) (Write : io.Writer W)
  (ts : option TokenSeq) (toks : list Token) (rest : Tokens) (w : W) :
  TokenSeq_Tokens ts = Done (map Some toks ++ None :: rest) ->
  WriteTo Write ts w
  = match WriteTo Write (Some [OfTokens (map Some toks)]) w with
    | Done (_, None, _) => Panic
    | other => other
    end.
Proof.
  intros Hts.
  pose proof (WriteTo_serve Write _ toks [] w (TokenSeq_Tokens_flat toks))
    as Hpre.
  pose proof (WriteTo_serve Write ts toks (None :: rest) w Hts) as Hall.
  rewrite TokenSeq_Tokens_flatten in Hts. injection Hts as Hfl.
  pose proof (range_WriteTo_func1_serve Write toks (None :: rest) 0 w)
    as Hrun.
  destruct (Trace.serve Write (Trace.plan toks) w) as [calls w'].
  rewrite Hpre by now left.
  destruct (Trace.outcome calls) as [e|] eqn:E.
  - apply Hall. right. discriminate.
  - unfold WriteTo, TokenSeq_EachToken.
    rewrite EachToken_flatten, Hfl, Hrun. reflexivity.
Qed.

Lemma WriteTo_nil_token_witness :
  TokenSeq_Tokens (Some Samples.too_long)
  = Done (map Some (Samples.fitting ++ [Samples.overflowing])
          ++ None :: [Some (Samples.tok 0 "never")])
  /\ WriteTo Samples.limited (Some Samples.too_long) 50
     = Done (50, Some "no space left"%string, 0)
  /\ WriteTo Samples.limited (Some Samples.too_long) 500 = Panic.
Proof.
  assert (H : TokenSeq_Tokens (Some Samples.too_long)
              = Done (map Some (Samples.fitting ++ [Samples.overflowing])
                      ++ None :: [Some (Samples.tok 0 "never")]))
    by reflexivity.
  split; [exact H|]. split.
  - exact (WriteTo_nil_token Z Samples.limited _ _ _ 50 H).
  - exact (WriteTo_nil_token Z Samples.limited _ _ _ 500 H).
Defined.



(** ** WriteTo on a sequence in two parts *)

Lemma int_add_0_r (a : Z) : is_int a -> int_add a 0 = a.
Proof. intros H. unfold int_add. rewrite Z.add_0_r. now apply int_wrap_small. Qed.

Lemma int_add_assoc (a b c : Z) :
  int_add (int_add a b) c = int_add a (int_add b c).
Proof.
  unfold int_add. rewrite int_wrap_add_l, int_wrap_add_r. f_equal. ring.
Qed.

Lemma tally_from (calls : list io.call) (n0 : Z) :
  is_int n0 -> Trace.tally calls n0 = int_add n0 (Trace.tally calls 0).
Proof.
  intros H. rewrite (tally_wraps_total calls n0 H).
  rewrite (tally_wraps_total calls 0) by (vm_compute; split; discriminate).
  unfold int_add. now rewrite int_wrap_add_r.
Qed.

Lemma tally_from_is_int (calls : list io.call) (n0 : Z) :
  is_int n0 -> is_int (Trace.tally calls n0).
Proof.
  intros H. rewrite (tally_wraps_total calls n0 H). apply int_wrap_is_int.
Qed.

Section TwoParts.
Context {W : Type}.
Variable Write : io.Writer W.

(** The count stays an [int] along the tokens. *)
Lemma range_WriteTo_func1_is_int (ps : Tokens) (n0 : Z) (w : W)
  (st : locals W) :
  is_int n0 ->
  range (WriteTo_func1 Write) ps {| n := n0; err := None; wr := w |}
  = Done st ->
  is_int (n st).
Proof.
  revert n0 w. induction ps as [|p ps IH]; intros n0 w Hn0; simpl.
  - now intros [= <-].
  - destruct p as [t|]; [|discriminate].
    rewrite WriteTo_func1_serve.
    destruct (Trace.serve Write (Trace.requests t) w) as [calls w1].
    simpl. destruct (Trace.outcome calls) as [e|] eqn:E.
    + rewrite range_WriteTo_func1_failed by (simpl; congruence).
      intros [= <-]. simpl. now apply tally_from_is_int.
    + apply IH. now apply tally_from_is_int.
Qed.

(** Starting the closure's count at [n0] adds [n0] to the count it ends
    with, and changes nothing else. *)
Lemma range_WriteTo_func1_shift (ps : Tokens) (n0 : Z) (w : W) :
  is_int n0 ->
  range (WriteTo_func1 Write) ps {| n := n0; err := None; wr := w |}
  = match
      range (WriteTo_func1 Write) ps {| n := 0; err := None; wr := w |}
    with
    | Done st => Done {| n := int_add n0 (n st); err := err st; wr := wr st |}
    | Panic => Panic
    end.
Proof.
  revert n0 w. induction ps as [|p ps IH]; intros n0 w Hn0; simpl.
  - now rewrite int_add_0_r.
  - destruct p as [t|]; [|reflexivity].
    rewrite !WriteTo_func1_serve.
    destruct (Trace.serve Write (Trace.requests t) w) as [calls w1].
    simpl. destruct (Trace.outcome calls) as [e|] eqn:E.
    + rewrite !range_WriteTo_func1_failed by (simpl; congruence).
      simpl. now rewrite (tally_from calls n0).
    + rewrite (IH (Trace.tally calls n0)) by now apply tally_from_is_int.
      rewrite (IH (Trace.tally calls 0)) by apply tally_is_int.
      destruct (range (WriteTo_func1 Write) ps _) as [st|]; [|reflexivity].
      simpl. now rewrite (tally_from calls n0), int_add_assoc.
Qed.
End TwoParts.

(** X6.  WriteTo on a sequence whose children are those of [s1] followed by
    those of [s2] is WriteTo on [s1] and then, unless that failed, WriteTo
    on [s2] with the writer as the first run left it: the counts add up,
    the error is that of the second run.  A failure in [s1] is returned as
    it is, with nothing of [s2] written. *)
Theorem WriteTo_app (W : Type) (Write : io.Writer W) (s1 s2 : TokenSeq)
  (w : W) :
  WriteTo Write (Some (s1 ++ s2)) w
  = match WriteTo Write (Some s1) w with
    | Done (n1, None, w1) =>
        match WriteTo Write (Some s2) w1 with
        | Done (n2, e, w2) => Done (int_add n1 n2, e, w2)
        | Panic => Panic
        end
    | other => other
    end.
Proof.
  assert (Hrange : forall s w0,
             WriteTo Write (Some s) w0
             = match
                 range (WriteTo_func1 Write) (concat (map flatten s))
                   {| n := 0; err := None; wr := w0 |}
               with
               | Done st => Done (n st, err st, wr st)
               | Panic => Panic
               end).
  { intros s w0. unfold WriteTo, TokenSeq_EachToken.
    now rewrite EachToken_flatten, flatten_OfTokenSeq. }
  rewrite (Hrange (s1 ++ s2)), (Hrange s1), map_app, concat_app, range_app.
  pose proof (range_WriteTo_func1_is_int Write
                (concat (map flatten s1)) 0 w) as Hint.
  destruct (range (WriteTo_func1 Write) (concat (map flatten s1)) _)
    as [[n1 e1 w1]|]; [|reflexivity].
  specialize (Hint _ ltac:(vm_compute; split; discriminate) eq_refl).
  cbn [bind n err wr] in *. destruct e1 as [e1|].
  - now rewrite range_WriteTo_func1_failed by (simpl; congruence).
  - rewrite (Hrange s2), range_WriteTo_func1_shift by exact Hint.
    destruct (range (WriteTo_func1 Write) (concat (map flatten s2)) _)
      as [st|]; reflexivity.
Qed.

(** The two cases of the composition, run: the second part is written
    after the first, and is not touched when the first fails. *)
Example WriteTo_app_executed :
  WriteTo Samples.limited
    (Some ([OfTokens (map Some Samples.fitting)]
           ++ [OfToken (Some Samples.overflowing)])) 200
  = Done (106, None, 94)
  /\ WriteTo Samples.limited
       (Some ([OfToken (Some Samples.overflowing)]
              ++ [OfTokens Samples.unreached])) 50
     = Done (50, Some "no space left"%string, 0).
Proof. split; reflexivity. Qed.

(** ** What reaches the writer, and the count for a writer that keeps to
    the documentation of io.Writer *)

Lemma len_nonneg {A : Type} (p : list A) : 0 <= len p.
Proof. unfold len. lia. Qed.

Lemma sum_sizes_bytes_passed (calls : list io.call) :
  Trace.sum (Trace.sizes calls) = len (Trace.bytes_passed calls).
Proof.
  now rewrite sizes_payloads, sum_lens_concat, bytes_passed_payloads.
Qed.

Section WriterContract.
Context {W : Type}.
Variable Write : io.Writer W.

(** The bytes passed to the writer are the text of the tokens, up to the
    end of some write. *)
Lemma serve_passes_prefix (reqs : list (list Byte.byte)) (w : W) :
  let calls := fst (Trace.serve Write reqs w) in
  Trace.bytes_passed calls ++ concat (skipn (List.length calls) reqs)
  = concat reqs.
Proof.
  cbv zeta. rewrite bytes_passed_payloads, serve_payloads.
  now rewrite <- concat_app, firstn_skipn.
Qed.

Lemma serve_counts_in_range (reqs : list (list Byte.byte)) (w : W) :
  Contract.counts_in_range Write ->
  Forall (fun c => 0 <= io.reported c <= len (io.payload c))
    (fst (Trace.serve Write reqs w)).
Proof.
  intros HW. revert w. induction reqs as [|p reqs IH]; intros w; simpl.
  - constructor.
  - pose proof (HW p w) as Hp.
    destruct (Write p w) as [[k e] w1]. simpl in Hp. destruct e as [e|].
    + repeat constructor; simpl; lia.
    + specialize (IH w1). destruct (Trace.serve Write reqs w1).
      constructor; [simpl; lia | exact IH].
Qed.

Lemma serve_reports_all (reqs : list (list Byte.byte)) (w : W) :
  Contract.short_means_error Write ->
  Forall (fun c => io.failure c = None -> io.reported c = len (io.payload c))
    (fst (Trace.serve Write reqs w)).
Proof.
  intros HW. revert w. induction reqs as [|p reqs IH]; intros w; simpl.
  - constructor.
  - pose proof (HW p w) as Hp.
    destruct (Write p w) as [[k e] w1]. simpl in Hp. destruct e as [e|].
    + repeat constructor. simpl. discriminate.
    + specialize (IH w1). destruct (Trace.serve Write reqs w1).
      constructor; [simpl; auto | exact IH].
Qed.
End WriterContract.

Lemma total_reported_in_range (calls : list io.call) :
  Forall (fun c => 0 <= io.reported c <= len (io.payload c)) calls ->
  0 <= Trace.total_reported calls <= Trace.sum (Trace.sizes calls).
Proof.
  induction 1 as [|c calls Hc _ IH]; simpl; lia.
Qed.

Lemma total_reported_all (calls : list io.call) :
  Forall (fun c => io.failure c = None -> io.reported c = len (io.payload c))
    calls ->
  Forall (fun c => io.failure c = None) calls ->
  Trace.total_reported calls = Trace.sum (Trace.sizes calls).
Proof.
  induction 1 as [|c calls Hc _ IH]; intros Hok; simpl.
  - reflexivity.
  - inversion Hok; subst. rewrite Hc, IH by assumption. reflexivity.
Qed.



(** X8.  With a writer whose counts are between 0 and the length of what it is
    passed, the count WriteTo returns is between 0 and the length of the
    text of the tokens (a length that is an [int]), error or not. *)
Theorem WriteTo_count_bounded (W : Type) (Write : io.Writer W)
  (ts : option TokenSeq) (toks : list Token) (w w' : W) (count : Z)
  (e : option error) :
  Contract.counts_in_range Write ->
  TokenSeq_Tokens ts = Done (map Some toks) ->
  len (Trace.render toks) <= int_max ->
  WriteTo Write ts w = Done (count, e, w') ->
  0 <= count <= len (Trace.render toks).
Proof.
  intros HW Hts Hmax Hrun. rewrite <- (app_nil_r (map Some toks)) in Hts.
  pose proof (WriteTo_serve Write ts toks [] w Hts) as H.
  pose proof (serve_counts_in_range Write (Trace.plan toks) w HW) as Hin.
  pose proof (serve_passes_prefix Write (Trace.plan toks) w) as Hpre.
  cbv zeta in Hpre.
  destruct (Trace.serve Write (Trace.plan toks) w) as [calls w1].
  simpl in Hin, Hpre. rewrite H in Hrun by now left.
  injection Hrun as <- _ _.
  apply total_reported_in_range in Hin.
  rewrite sum_sizes_bytes_passed in Hin.
  apply (f_equal len) in Hpre. rewrite len_app, concat_plan in Hpre.
  pose proof (len_nonneg (concat (skipn (List.length calls)
                                    (Trace.plan toks)))) as Hrest.
  rewrite tally_wraps_total by (vm_compute; split; discriminate).
  rewrite int_wrap_small; [simpl; lia|].
  split; [|simpl; lia]. transitivity 0; [vm_compute; discriminate | simpl; lia].
Qed.

Lemma capped_counts_in_range : Contract.counts_in_range Contract.capped.
Proof.
  intros p room. unfold Contract.capped, len.
  destruct (Nat.leb_spec (List.length p) room); simpl; lia.
Qed.

Lemma capped_short_means_error : Contract.short_means_error Contract.capped.
Proof.
  intros p room. unfold Contract.capped.
  destruct (Nat.leb_spec (List.length p) room); simpl;
    [reflexivity | discriminate].
Qed.

Lemma WriteTo_count_bounded_witness :
  Contract.counts_in_range Contract.capped
  /\ TokenSeq_Tokens (Some Samples.tree)
     = Done (map Some Samples.source_tokens)
  /\ len (Trace.render Samples.source_tokens) <= int_max
  /\ WriteTo Contract.capped (Some Samples.tree) 7%nat
     = Done (7, Some "no space left"%string, 0%nat)
  /\ 0 <= 7 <= len (Trace.render Samples.source_tokens).
Proof.
  assert (Hmax : len (Trace.render Samples.source_tokens) <= int_max)
    by (vm_compute; discriminate).
  split; [exact capped_counts_in_range|]. split; [reflexivity|].
  split; [exact Hmax|]. split; [reflexivity|].
  exact (WriteTo_count_bounded nat Contract.capped (Some Samples.tree)
           Samples.source_tokens 7%nat 0%nat 7
           (Some "no space left"%string)
           capped_counts_in_range eq_refl Hmax eq_refl).
Defined.

(** X9.  With a writer that never returns a short count without an error, a nil
    error from WriteTo means that the count is the length of the whole text
    of the tokens (a length that is an [int]). *)
Theorem WriteTo_success_count (W : Type) (Write : io.Writer W)
  (ts : option TokenSeq) (toks : list Token) (w w' : W) (count : Z) :
  Contract.short_means_error Write ->
  TokenSeq_Tokens ts = Done (map Some toks) ->
  len (Trace.render toks) <= int_max ->
  WriteTo Write ts w = Done (count, None, w') ->
  count = len (Trace.render toks).
Proof.
  intros HW Hts Hmax Hrun. rewrite <- (app_nil_r (map Some toks)) in Hts.
  pose proof (WriteTo_serve Write ts toks [] w Hts) as H.
  pose proof (serve_reports_all Write (Trace.plan toks) w HW) as Hrep.
  pose proof (serve_complete Write (Trace.plan toks) w) as Hall.
  pose proof (serve_fails_last Write (Trace.plan toks) w) as Hinit.
  cbv zeta in Hall, Hinit.
  destruct (Trace.serve Write (Trace.plan toks) w) as [calls w1].
  simpl in Hrep, Hall, Hinit. rewrite H in Hrun by now left.
  injection Hrun as <- Hok _.
  rewrite tally_wraps_total by (vm_compute; split; discriminate).
  rewrite (total_reported_all calls Hrep)
    by now apply all_ok_of_outcome.
  rewrite sizes_payloads, (Hall Hok), sum_lens_concat, concat_plan.
  simpl. apply int_wrap_small. split; [|exact Hmax].
  pose proof (len_nonneg (Trace.render toks)).
  transitivity 0; [vm_compute; discriminate | assumption].
Qed.

Lemma WriteTo_success_count_witness :
  Contract.short_means_error Contract.capped
  /\ TokenSeq_Tokens (Some Samples.tree)
     = Done (map Some Samples.source_tokens)
  /\ len (Trace.render Samples.source_tokens) <= int_max
  /\ WriteTo Contract.capped (Some Samples.tree) 12%nat
     = Done (10, None, 2%nat)
  /\ 10 = len (Trace.render Samples.source_tokens).
Proof.
  assert (Hmax : len (Trace.render Samples.source_tokens) <= int_max)
    by (vm_compute; discriminate).
  split; [exact capped_short_means_error|]. split; [reflexivity|].
  split; [exact Hmax|]. split; [reflexivity|].
  exact (WriteTo_success_count nat Contract.capped (Some Samples.tree)
           Samples.source_tokens 12%nat 2%nat 10
           capped_short_means_error eq_refl Hmax eq_refl).
Defined.

(** ** The number of writes *)

Lemma length_space_chunks (k : Z) :
  Z.of_nat (List.length (Trace.space_chunks k)) = (Z.max 0 k + 39) / 40.
Proof.
  induction k as [k Hk|k Hk IH] using chunk_steps_ind.
  - rewrite space_chunks_stop, Z.max_l by assumption. reflexivity.
  - rewrite space_chunks_step by assumption. cbn [List.length].
    rewrite Nat2Z.inj_succ, IH, (Z.max_r 0 k) by lia.
    destruct (Z_lt_le_dec k 40).
    + rewrite Z.max_l by lia. change ((0 + 39) / 40) with 0.
      apply (Z.div_unique _ _ _ (k - 1)); lia.
    + rewrite Z.max_r by lia.
      replace (k + 39) with ((k - 40 + 39) + 1 * 40) by ring.
      rewrite Z.div_add by lia. lia.
Qed.

Lemma length_plan (toks : list Token) :
  Z.of_nat (List.length (Trace.plan toks)) = Contract.writes_for_all toks.
Proof.
  induction toks as [|t toks IH]; simpl; [reflexivity|].
  unfold Trace.requests. rewrite !length_app, !Nat2Z.inj_add.
  change (flat_map Trace.requests toks) with (Trace.plan toks).
  rewrite IH, length_space_chunks. unfold Contract.writes_for. simpl. lia.
Qed.

(** X10.  WriteTo calls the writer once for each started run of 40 spaces of a
    token and once for its bytes, empty or not: when it returns a nil
    error the number of calls is that sum over the tokens, and it is never
    more. *)
Theorem WriteTo_number_of_writes (W : Type) (Write : io.Writer W)
  (ts : option TokenSeq) (toks : list Token) (w w' : W) (count : Z)
  (e : option error) (log : list io.call) :
  TokenSeq_Tokens ts = Done (map Some toks) ->
  WriteTo (io.recording Write) ts (w, []) = Done (count, e, (w', log)) ->
  Z.of_nat (List.length log) <= Contract.writes_for_all toks
  /\ (e = None -> Z.of_nat (List.length log) = Contract.writes_for_all toks)
  /\ (e = None -> Z.of_nat (List.length toks) <= Z.of_nat (List.length log)).
Proof.
  intros Hts Hrun. rewrite <- (app_nil_r (map Some toks)) in Hts.
  rewrite (WriteTo_recording Write ts toks [] w [] Hts) in Hrun by now left.
  injection Hrun as _ He _ Hlog. simpl in Hlog. subst log.
  pose proof (serve_payloads Write (Trace.plan toks) w) as Hpre.
  pose proof (serve_complete Write (Trace.plan toks) w) as Hall.
  cbv zeta in Hpre, Hall.
  apply (f_equal (@List.length _)) in Hpre.
  rewrite length_map, length_firstn in Hpre.
  assert (Hfull : e = None ->
            Z.of_nat (List.length
                        (fst (Trace.serve Write (Trace.plan toks) w)))
            = Contract.writes_for_all toks).
  { intros ->. specialize (Hall He).
    apply (f_equal (@List.length _)) in Hall. rewrite length_map in Hall.
    now rewrite Hall, length_plan. }
  repeat split.
  - rewrite <- length_plan. lia.
  - exact Hfull.
  - intros Hnone. rewrite (Hfull Hnone). clear.
    induction toks as [|t toks IH]; simpl; [reflexivity|].
    unfold Contract.writes_for.
    pose proof (Z.div_pos (Z.max 0 (SpacesBefore t) + 39) 40
                  ltac:(lia) ltac:(lia)).
    change (fold_right _ 0 toks) with (Contract.writes_for_all toks).
    lia.
Qed.

Lemma WriteTo_number_of_writes_witness :
  TokenSeq_Tokens (Some Samples.lossy_tokens)
  = Done (map Some [Samples.tok 41 "ab"; Samples.tok 0 "c"])
  /\ WriteTo (io.recording Samples.lossy) (Some Samples.lossy_tokens) ([], [])
     = Done (40, None, (Samples.lossy_kept, Samples.lossy_log))
  /\ Z.of_nat (List.length Samples.lossy_log) = 4.
Proof.
  split; [reflexivity|]. split; [reflexivity|].
  exact (proj1 (proj2 (WriteTo_number_of_writes _ Samples.lossy
                         (Some Samples.lossy_tokens)
                         [Samples.tok 41 "ab"; Samples.tok 0 "c"]
                         [] Samples.lossy_kept 40 None Samples.lossy_log
                         eq_refl eq_refl)) eq_refl).
Defined.

(** ** Chains of chains, and what a chain keeps *)

Section ChainLaws.
Import transform.
Context {Body World : Type}.

Lemma chain_TransformBody_concat (cs : list (chain Body World))
  (body : Body) (w : World) :
  chain_TransformBody (map Chain cs) body w
  = chain_TransformBody (concat cs) body w.
Proof.
  revert body w. induction cs as [|c cs IH]; intros body w; simpl.
  - reflexivity.
  - rewrite chain_TransformBody_app.
    destruct (chain_TransformBody c body w) as [body' w']. apply IH.
Qed.
End ChainLaws.

(** X11.  A chain of chains transforms as the one chain of all their
    transformers in order: chains nest and split freely.  A chain of one
    transformer transforms as that transformer, and the transformer made
    by [TransformerFunc] from a function as the function. *)
Theorem Chain_flattens (Body World : Type)
  (cs : list (list (transform.Transformer Body World)))
  (c1 c2 : list (transform.Transformer Body World))
  (t : transform.Transformer Body World)
  (f : Body -> World -> Body * World) (body : Body) (w : World) :
  transform.TransformBody (transform.Chain (map transform.Chain cs)) body w
  = transform.TransformBody (transform.Chain (concat cs)) body w
  /\ transform.TransformBody
       (transform.Chain [transform.Chain c1; transform.Chain c2]) body w
     = transform.TransformBody (transform.Chain (c1 ++ c2)) body w
  /\ transform.TransformBody (transform.Chain [t]) body w
     = transform.TransformBody t body w
  /\ transform.TransformBody
       (transform.Chain [transform.TransformerFunc f; t]) body w
     = let '(body', w') := f body w in transform.TransformBody t body' w'.
Proof.
  repeat split.
  - apply chain_TransformBody_concat.
  - pose proof (chain_TransformBody_concat [c1; c2] body w) as H.
    simpl in H. rewrite app_nil_r in H. exact H.
  - simpl. now destruct (transform.TransformBody t body w).
  - simpl. destruct (f body w) as [body' w'].
    now destruct (transform.TransformBody t body' w').
Qed.

(** X12.  A property of the body and the world that every transformer of a chain
    keeps is kept by the chain; so a chain of transformers that leave the
    world as it is leaves the world as it is. *)
Theorem Chain_keeps_invariant (Body World : Type)
  (P : Body -> World -> Prop)
  (c : list (transform.Transformer Body World)) (body : Body) (w : World) :
  Forall (fun t => forall b w0,
            P b w0 ->
            P (fst (transform.TransformBody t b w0))
              (snd (transform.TransformBody t b w0))) c ->
  P body w ->
  P (fst (transform.TransformBody (transform.Chain c) body w))
    (snd (transform.TransformBody (transform.Chain c) body w)).
Proof.
  intros Hc. revert body w. simpl.
  induction Hc as [|t c Ht _ IH]; intros body w HP; simpl.
  - exact HP.
  - specialize (Ht body w HP).
    destruct (transform.TransformBody t body w) as [body' w'].
    now apply IH.
Qed.

Lemma Chain_keeps_invariant_witness :
  Forall (fun t => forall b w0,
            List.length b = w0 ->
            List.length (fst (transform.TransformBody t b w0))
            = snd (transform.TransformBody t b w0))
    [Samples.appendMarker "A"; Samples.appendMarker "B"]
  /\ List.length (@nil string) = 0%nat
  /\ List.length
       (fst (transform.TransformBody
               (transform.Chain
                  [Samples.appendMarker "A"; Samples.appendMarker "B"])
               [] 0%nat))
     = snd (transform.TransformBody
              (transform.Chain
                 [Samples.appendMarker "A"; Samples.appendMarker "B"])
              [] 0%nat).
Proof.
  assert (H : Forall (fun t => forall b w0,
                        List.length b = w0 ->
                        List.length (fst (transform.TransformBody t b w0))
                        = snd (transform.TransformBody t b w0))
                [Samples.appendMarker "A"; Samples.appendMarker "B"]).
  { repeat constructor; intros b w0 <-; simpl;
      rewrite length_app; simpl; lia. }
  split; [exact H|]. split; [reflexivity|].
  exact (Chain_keeps_invariant (list string) nat
           (fun b w0 => List.length b = w0) _ [] 0%nat H eq_refl).
Defined.
